(** * Veonix: the structured-output recovery pipeline of [GeminiClient]

    A shallow embedding of [src/app/services/gemini_client.py]:
    [_extract_json] (the JSON Locator), [_attempt_repair] (the Repair
    Engine) and [analyze_image_with_prompt] (the pipeline), together with
    the Python primitives they call: [str.strip], [str.replace],
    [str.count], [re.search] for the one pattern the client uses, and
    [json.loads].

    Conventions.
    - A Python [str] is a list of Unicode code points ([N]).
    - [json.loads] is modelled after CPython's [json.decoder] and
      [json.scanner] (strict mode, default hooks): the grammar it accepts
      and the values it builds.  Interpreter resource limits (recursion
      depth, the digit limit of [int]) are outside the model.
    - A [float] is kept as the literal handed to [parse_float]; no
      floating-point arithmetic is performed by the client.
    - In examples JSON texts are written as Rocq string literals in which
      an apostrophe stands for the double quote (code point 34); see
      [lit]. *)

From Stdlib Require Import Strings.String Strings.Ascii.
From Stdlib Require Import List NArith ZArith Lia Bool Arith.
Import ListNotations.

Set Implicit Arguments.

(** ** Python strings *)

Definition char := N.
Definition str := list char.

Module Ch.
Definition tab : char := 9%N.
Definition lf : char := 10%N.
Definition cr : char := 13%N.
Definition space : char := 32%N.
Definition dquote : char := 34%N.
Definition apostrophe : char := 39%N.
Definition plus : char := 43%N.
Definition comma : char := 44%N.
Definition minus : char := 45%N.
Definition dot : char := 46%N.
Definition slash : char := 47%N.
Definition zero : char := 48%N.
Definition colon : char := 58%N.
Definition lbracket : char := 91%N.
Definition backslash : char := 92%N.
Definition rbracket : char := 93%N.
Definition backtick : char := 96%N.
Definition lbrace : char := 123%N.
Definition rbrace : char := 125%N.
End Ch.

(** [lit] turns an ASCII literal into a [str]; an apostrophe in the
    literal denotes the double quote. *)
Definition lit_char (a : ascii) : char :=
  let c := N_of_ascii a in
  if N.eqb c Ch.apostrophe then Ch.dquote else c.

Definition lit (s : string) : str := map lit_char (list_ascii_of_string s).

(** [str.isspace] on one code point: the characters [str.strip()] removes. *)
Definition isspace (c : char) : bool :=
  ((9 <=? c) && (c <=? 13) || (28 <=? c) && (c <=? 32)
   || (c =? 133) || (c =? 160) || (c =? 5760)
   || (8192 <=? c) && (c <=? 8202)
   || (c =? 8232) || (c =? 8233) || (c =? 8239) || (c =? 8287)
   || (c =? 12288))%N.

Fixpoint lstrip (s : str) : str :=
  match s with
  | [] => []
  | c :: t => if isspace c then lstrip t else s
  end.

Fixpoint rstrip (s : str) : str :=
  match s with
  | [] => []
  | c :: t =>
      match rstrip t with
      | [] => if isspace c then [] else [c]
      | t' => c :: t'
      end
  end.

(** [s.strip()] *)
Definition strip (s : str) : str := rstrip (lstrip s).

Fixpoint startswith (s prefix : str) {struct prefix} : bool :=
  match prefix, s with
  | [], _ => true
  | _ :: _, [] => false
  | p :: prefix', c :: s' => N.eqb c p && startswith s' prefix'
  end.

(** [s.replace(old, new)]: every occurrence of [old], found left to right
    without overlap, is replaced.  [skip] counts the characters of a
    matched occurrence still to be passed over. *)
Fixpoint replace_from (old new : str) (skip : nat) (s : str) : str :=
  match s with
  | [] => []
  | c :: t =>
      match skip with
      | S k => replace_from old new k t
      | O =>
          if startswith s old
          then new ++ replace_from old new (length old - 1) t
          else c :: replace_from old new 0 t
      end
  end.

Definition replace (s old new : str) : str :=
  match old with
  | [] => new ++ flat_map (fun c => c :: new) s
  | _ :: _ => replace_from old new 0 s
  end.

(** [s.count(sub)]: the number of non-overlapping occurrences. *)
Fixpoint count_from (sub : str) (skip : nat) (s : str) : nat :=
  match s with
  | [] => 0
  | _ :: t =>
      match skip with
      | S k => count_from sub k t
      | O =>
          if startswith s sub
          then S (count_from sub (length sub - 1) t)
          else count_from sub 0 t
      end
  end.

Definition count (s sub : str) : nat :=
  match sub with
  | [] => S (length s)
  | _ :: _ => count_from sub 0 s
  end.

(** ** [re.search(r'\{[\s\S]*\}', text)]

    [[\s\S]] accepts every character.  The star is greedy: at a start
    position the engine first lets it run to the end of the text and then
    gives characters back until a closing brace follows. *)
Fixpoint match_star_rbrace (s : str) : option str :=
  match s with
  | [] => None
  | c :: t =>
      match match_star_rbrace t with
      | Some m => Some (c :: m)
      | None => if N.eqb c Ch.rbrace then Some [c] else None
      end
  end.

(** The search tries the start positions from left to right. *)
Fixpoint re_search_object (s : str) : option str :=
  match s with
  | [] => None
  | c :: t =>
      if N.eqb c Ch.lbrace
      then match match_star_rbrace t with
           | Some m => Some (c :: m)
           | None => re_search_object t
           end
      else re_search_object t
  end.

(** ** The JSON Locator: [GeminiClient._extract_json]

    The argument is a [str], so the [isinstance] guard never fires. *)
Definition fence_json : str := lit "```json".
Definition fence : str := lit "```".

Definition _extract_json (text : str) : str :=
  let text := strip text in
  let text := replace text fence_json [] in
  let text := strip (replace text fence []) in
  match re_search_object text with
  | Some m => strip m
  | None => text
  end.

(** ** Python values built by [json.loads] *)

Fixpoint str_eqb (a b : str) : bool :=
  match a, b with
  | [], [] => true
  | x :: a', y :: b' => N.eqb x y && str_eqb a' b'
  | _, _ => false
  end.

Section Dict.
Variable V : Type.

(** [d[k] = v] on an insertion-ordered dict: an existing key keeps its
    place and takes the new value, a new key goes to the end. *)
Fixpoint dict_setitem (d : list (str * V)) (k : str) (v : V) : list (str * V) :=
  match d with
  | [] => [(k, v)]
  | (k', v') :: d' =>
      if str_eqb k' k then (k', v) :: d' else (k', v') :: dict_setitem d' k v
  end.

(** [dict(pairs)] *)
Definition dict (pairs : list (str * V)) : list (str * V) :=
  fold_left (fun d kv => dict_setitem d (fst kv) (snd kv)) pairs [].
End Dict.

#[warnings="-register-all"] Inductive pyobj : Type :=
| PyNone
| PyBool (b : bool)
| PyInt (z : Z)
| PyFloat (literal : str)
| PyStr (s : str)
| PyList (items : list pyobj)
| PyDict (items : list (str * pyobj)).

Definition is_dict (v : pyobj) : bool :=
  match v with PyDict _ => true | _ => false end.

(** ** [json.loads]: strings *)

Definition hexval (c : char) : option N :=
  (if (48 <=? c) && (c <=? 57) then Some (c - 48)
   else if (65 <=? c) && (c <=? 70) then Some (c - 55)
   else if (97 <=? c) && (c <=? 102) then Some (c - 87)
   else None)%N.

(** The four characters after [\u] must be hexadecimal digits (the C
    scanner CPython uses by default accepts nothing else). *)
Definition _decode_uXXXX (a b c d : char) : option N :=
  match hexval a, hexval b, hexval c, hexval d with
  | Some x, Some y, Some z, Some w => Some (((x * 16 + y) * 16 + z) * 16 + w)%N
  | _, _, _, _ => None
  end.

Definition BACKSLASH (esc : char) : option char :=
  (if esc =? 34 then Some 34
   else if esc =? 92 then Some 92
   else if esc =? 47 then Some 47
   else if esc =? 98 then Some 8
   else if esc =? 102 then Some 12
   else if esc =? 110 then Some 10
   else if esc =? 114 then Some 13
   else if esc =? 116 then Some 9
   else None)%N.

Definition is_high_surrogate (u : N) : bool := ((55296 <=? u) && (u <=? 56319))%N.
Definition is_low_surrogate (u : N) : bool := ((56320 <=? u) && (u <=? 57343))%N.
Definition join_surrogates (u u2 : N) : N :=
  (65536 + N.lor (N.shiftl (u - 55296) 10) (u2 - 56320))%N.

(** One more decoded character in front of what the rest of the scan
    yields. *)
Definition chunk (c : char) (r : option (str * str)) : option (str * str) :=
  match r with
  | Some (v, rest) => Some (c :: v, rest)
  | None => None
  end.

(** [scanstring(s, end)] in strict mode, [s] starting after the opening
    quote: the decoded string and what follows the closing quote. *)
Fixpoint scanstring (s : str) : option (str * str) :=
  match s with
  | [] => None
  | c :: t =>
      if N.eqb c Ch.dquote then Some ([], t)
      else if N.eqb c Ch.backslash then
        match t with
        | [] => None
        | esc :: t1 =>
            if N.eqb esc 117 then
              match t1 with
              | h1 :: h2 :: h3 :: h4 :: t2 =>
                  match _decode_uXXXX h1 h2 h3 h4 with
                  | None => None
                  | Some uni =>
                      if is_high_surrogate uni then
                        match t2 with
                        | b :: u :: l1 :: l2 :: l3 :: l4 :: t3 =>
                            if N.eqb b Ch.backslash && N.eqb u 117 then
                              match _decode_uXXXX l1 l2 l3 l4 with
                              | None => None
                              | Some uni2 =>
                                  if is_low_surrogate uni2
                                  then chunk (join_surrogates uni uni2) (scanstring t3)
                                  else chunk uni (scanstring t2)
                              end
                            else chunk uni (scanstring t2)
                        | _ => chunk uni (scanstring t2)
                        end
                      else chunk uni (scanstring t2)
                  end
              | _ => None
              end
            else
              match BACKSLASH esc with
              | None => None
              | Some ch => chunk ch (scanstring t1)
              end
        end
      else if N.ltb c 32 then None
      else chunk c (scanstring t)
  end.

(** ** [json.loads]: numbers

    [NUMBER_RE] has three groups: an integer (an optional minus sign, then
    a single zero or a digit sequence without leading zero), an optional
    fraction (a dot and at least one digit) and an optional exponent ([e]
    or [E], an optional sign, at least one digit).  Digits are the ASCII
    ones. *)
Definition isdigit (c : char) : bool := ((48 <=? c) && (c <=? 57))%N.

Fixpoint digits (s : str) : str * str :=
  match s with
  | [] => ([], [])
  | c :: t =>
      if isdigit c then let (d, r) := digits t in (c :: d, r) else ([], s)
  end.

(** One or more digits after the already matched [pre]. *)
Definition match_digits (pre s : str) : option (str * str) :=
  match digits s with
  | ([], _) => None
  | (d, r) => Some (pre ++ d, r)
  end.

(** A single zero, or a digit sequence without leading zero, after the
    already matched [sign]. *)
Definition match_natural (sign s : str) : option (str * str) :=
  match s with
  | [] => None
  | c :: t =>
      if N.eqb c Ch.zero then Some (sign ++ [c], t)
      else if isdigit c then let (d, r) := digits t in Some (sign ++ c :: d, r)
      else None
  end.

Definition match_integer (s : str) : option (str * str) :=
  match s with
  | [] => None
  | c :: t => if N.eqb c Ch.minus then match_natural [c] t else match_natural [] s
  end.

Definition match_frac (s : str) : option (str * str) :=
  match s with
  | [] => None
  | c :: t => if N.eqb c Ch.dot then match_digits [c] t else None
  end.

Definition match_exp (s : str) : option (str * str) :=
  match s with
  | [] => None
  | e :: t =>
      if N.eqb e 101 || N.eqb e 69 then
        match t with
        | [] => None
        | c :: t' =>
            if N.eqb c Ch.plus || N.eqb c Ch.minus
            then match_digits [e; c] t'
            else match_digits [e] t
        end
      else None
  end.

(** [NUMBER_RE.match]: the groups [(integer, frac, exp)] and the rest. *)
Definition match_number (s : str) : option (str * option str * option str * str) :=
  match match_integer s with
  | None => None
  | Some (integer, s1) =>
      let (frac, s2) :=
        match match_frac s1 with
        | Some (f, r) => (Some f, r)
        | None => (None, s1)
        end in
      let (exp, s3) :=
        match match_exp s2 with
        | Some (e, r) => (Some e, r)
        | None => (None, s2)
        end in
      Some (integer, frac, exp, s3)
  end.

Definition int_of_digits (ds : str) : Z :=
  fold_left (fun acc c => 10 * acc + Z.of_N (c - 48))%Z ds 0%Z.

(** [int(integer)] on a match of the first group. *)
Definition parse_int (integer : str) : Z :=
  match integer with
  | [] => 0%Z
  | c :: t => if N.eqb c Ch.minus then (- int_of_digits t)%Z else int_of_digits integer
  end.

Definition or_empty (o : option str) : str :=
  match o with Some x => x | None => [] end.

(** ** [json.loads]: values *)

Definition is_ws (c : char) : bool :=
  (N.eqb c Ch.space || N.eqb c Ch.tab || N.eqb c Ch.lf || N.eqb c Ch.cr).

(** [WHITESPACE.match(s, end).end()] *)
Fixpoint skip_ws (s : str) : str :=
  match s with
  | [] => []
  | c :: t => if is_ws c then skip_ws t else s
  end.

(** Outcome of scanning a value at the head of the input: the value and
    the rest of the input, a [JSONDecodeError] ([StopIteration] inside
    the scanner), or the recursion budget of the model used up. *)
Inductive scan : Type :=
| Scanned (v : pyobj) (rest : str)
| Invalid
| Exhausted.

Section Containers.
(** As in [json.decoder], the container parsers receive the value
    scanner as an argument. *)
Variable scan_once : str -> scan.

(** The [while True] loop of [JSONObject]; [s] starts after the opening
    quote of a key. *)
Fixpoint object_loop (fuel : nat) (pairs : list (str * pyobj)) (s : str) : scan :=
  match fuel with
  | O => Exhausted
  | S fuel' =>
      match scanstring s with
      | None => Invalid
      | Some (key, s1) =>
          match skip_ws s1 with
          | [] => Invalid
          | c1 :: s2 =>
              if N.eqb c1 Ch.colon then
                match scan_once (skip_ws s2) with
                | Scanned value s3 =>
                    let pairs := pairs ++ [(key, value)] in
                    match skip_ws s3 with
                    | [] => Invalid
                    | nextchar :: s4 =>
                        if N.eqb nextchar Ch.rbrace then Scanned (PyDict (dict pairs)) s4
                        else if N.eqb nextchar Ch.comma then
                          match skip_ws s4 with
                          | [] => Invalid
                          | q :: s5 =>
                              if N.eqb q Ch.dquote
                              then object_loop fuel' pairs s5
                              else Invalid
                          end
                        else Invalid
                    end
                | Invalid => Invalid
                | Exhausted => Exhausted
                end
              else Invalid
          end
      end
  end.

(** [JSONObject((s, end), ...)], [s] starting after the opening brace. *)
Definition JSONObject (fuel : nat) (s : str) : scan :=
  match skip_ws s with
  | [] => Invalid
  | nextchar :: t =>
      if N.eqb nextchar Ch.rbrace then Scanned (PyDict []) t
      else if N.eqb nextchar Ch.dquote then object_loop fuel [] t
      else Invalid
  end.

(** The [while True] loop of [JSONArray]; [s] starts at a value. *)
Fixpoint array_loop (fuel : nat) (values : list pyobj) (s : str) : scan :=
  match fuel with
  | O => Exhausted
  | S fuel' =>
      match scan_once s with
      | Scanned value s1 =>
          let values := values ++ [value] in
          match skip_ws s1 with
          | [] => Invalid
          | nextchar :: s2 =>
              if N.eqb nextchar Ch.rbracket then Scanned (PyList values) s2
              else if N.eqb nextchar Ch.comma
              then array_loop fuel' values (skip_ws s2)
              else Invalid
          end
      | Invalid => Invalid
      | Exhausted => Exhausted
      end
  end.

(** [JSONArray((s, end), scan_once)], [s] starting after the opening
    bracket. *)
Definition JSONArray (fuel : nat) (s : str) : scan :=
  match skip_ws s with
  | [] => Invalid
  | nextchar :: t =>
      if N.eqb nextchar Ch.rbracket then Scanned (PyList []) t
      else array_loop fuel [] (nextchar :: t)
  end.
End Containers.

(** [_scan_once(string, idx)] of [json.scanner].  [fuel] bounds the
    nesting of the recursion; [json_loads] supplies enough of it. *)
Fixpoint scan_once (fuel : nat) (s : str) : scan :=
  match fuel with
  | O => Exhausted
  | S fuel' =>
      match s with
      | [] => Invalid
      | nextchar :: t =>
          if N.eqb nextchar Ch.dquote then
            match scanstring t with
            | Some (v, rest) => Scanned (PyStr v) rest
            | None => Invalid
            end
          else if N.eqb nextchar Ch.lbrace then JSONObject (scan_once fuel') fuel' t
          else if N.eqb nextchar Ch.lbracket then JSONArray (scan_once fuel') fuel' t
          else if startswith s (lit "null") then Scanned PyNone (skipn 4 s)
          else if startswith s (lit "true") then Scanned (PyBool true) (skipn 4 s)
          else if startswith s (lit "false") then Scanned (PyBool false) (skipn 5 s)
          else
            match match_number s with
            | Some (integer, frac, exp, rest) =>
                match frac, exp with
                | None, None => Scanned (PyInt (parse_int integer)) rest
                | _, _ => Scanned (PyFloat (integer ++ or_empty frac ++ or_empty exp)) rest
                end
            | None =>
                if startswith s (lit "NaN") then Scanned (PyFloat (lit "NaN")) (skipn 3 s)
                else if startswith s (lit "Infinity")
                then Scanned (PyFloat (lit "Infinity")) (skipn 8 s)
                else if startswith s (lit "-Infinity")
                then Scanned (PyFloat (lit "-Infinity")) (skipn 9 s)
                else Invalid
            end
      end
  end.

(** [json.loads(s)] for a [str]: [Some v] when it returns [v], [None]
    when it raises [JSONDecodeError].  A text that starts with the byte
    order mark is refused; otherwise [JSONDecoder.decode] skips
    whitespace, scans one value and accepts only whitespace after it. *)
Definition json_loads (s : str) : option pyobj :=
  if startswith s [65279%N] then None
  else
    match scan_once (S (length s)) (skip_ws s) with
    | Scanned obj rest =>
        match skip_ws rest with
        | [] => Some obj
        | _ :: _ => None
        end
    | Invalid | Exhausted => None
    end.

(** ** The world of the client: the model service and the logger *)

Inductive exception : Type :=
| HTTPException (status_code : Z) (detail : str)
    (** [fastapi.HTTPException] *)
| Exception (message : str)
    (** any other subclass of [Exception]; [message] is its [str()] *)
| BaseException (message : str)
    (** an exception outside [Exception], such as [KeyboardInterrupt] *).

(** The first element of the list passed to [generate_content]. *)
Record image_part : Type := { mime_type : str; data : list N }.

(** One outbound call: [genai.GenerativeModel(name).generate_content(
    [image, prompt])]. *)
Record request : Type :=
  { req_model : str; req_image : image_part; req_prompt : str }.

(** What the attribute [text] of the response object holds. *)
Inductive response : Type :=
| NoTextAttr
| TextNone
| Text (t : str).

Inductive reply : Type :=
| Returns (r : response)
| Raises (e : exception).

Inductive log_record : Type :=
| LogError (msg : str)       (** [logger.error(msg)] *)
| LogException (msg : str)   (** [logger.exception(msg)] *).

Record world : Type := { calls : list request; records : list log_record }.

Definition no_effects : world := {| calls := []; records := [] |}.

(** Computations that call the model, log, and return or raise. *)
Definition M (A : Type) : Type := world -> (A + exception) * world.

Definition ret {A} (a : A) : M A := fun w => (inl a, w).
Definition raise {A} (e : exception) : M A := fun w => (inr e, w).

Definition bind {A B} (c : M A) (k : A -> M B) : M B :=
  fun w =>
    match c w with
    | (inl a, w') => k a w'
    | (inr e, w') => (inr e, w')
    end.

Definition try_except {A} (body : M A) (handler : exception -> M A) : M A :=
  fun w =>
    match body w with
    | (inl a, w') => (inl a, w')
    | (inr e, w') => handler e w'
    end.

Notation "x <- c ;; k" := (bind c (fun x => k))
  (at level 61, c at next level, right associativity).
Notation "c ;;; k" := (bind c (fun _ => k))
  (at level 61, right associativity).

Definition logger_error (msg : str) : M unit :=
  fun w => (inl tt, {| calls := calls w; records := records w ++ [LogError msg] |}).

Definition logger_exception (msg : str) : M unit :=
  fun w => (inl tt, {| calls := calls w; records := records w ++ [LogException msg] |}).

Record GeminiClient : Type := { api_key : str; model_name : str }.

Definition repair_failed : exception :=
  HTTPException 502 (lit "Gemini returned invalid JSON (repair failed).").

(** ** The Repair Engine: [GeminiClient._attempt_repair] *)
Definition _attempt_repair (self : GeminiClient) (text : str) : M pyobj :=
  let closed :=
    if Nat.eqb (count text (lit "{")) (count text (lit "}") + 1)
    then let candidate := text ++ lit "}" in json_loads candidate
    else None in
  match closed with
  | Some v => ret v
  | None =>
      let cleaned := replace (replace text (lit ",}") (lit "}")) (lit ",]") (lit "]") in
      match json_loads cleaned with
      | Some v => ret v
      | None =>
          logger_error (lit "JSON repair failed") ;;;
          raise repair_failed
      end
  end.

Section Pipeline.
(** The generative model: what one outbound call answers. *)
Variable generate_content : request -> reply.

Definition model_call (r : request) : M response :=
  fun w =>
    let w' := {| calls := calls w ++ [r]; records := records w |} in
    match generate_content r with
    | Returns resp => (inl resp, w')
    | Raises e => (inr e, w')
    end.

(** [getattr(response, "text", "") or ""] *)
Definition text_or_empty (resp : response) : str :=
  match resp with
  | Text t => t
  | NoTextAttr | TextNone => []
  end.

(** ** The pipeline: [GeminiClient.analyze_image_with_prompt]

    [mime_type = None] is the call that leaves the argument out. *)
Definition analyze_image_with_prompt (self : GeminiClient)
    (image_bytes : list N) (prompt : str) (mime_type : option str) : M pyobj :=
  let mime_type :=
    match mime_type with Some m => m | None => lit "image/jpeg" end in
  try_except
    (response <- model_call
       {| req_model := model_name self;
          req_image := {| mime_type := mime_type; data := image_bytes |};
          req_prompt := prompt |} ;;
     let raw_text := text_or_empty response in
     logger_error (lit "RAW GEMINI OUTPUT:" ++ [Ch.lf] ++ raw_text) ;;;
     let cleaned := _extract_json raw_text in
     logger_error (lit "CLEANED JSON CANDIDATE:" ++ [Ch.lf] ++ cleaned) ;;;
     match json_loads cleaned with
     | Some v => ret v
     | None => _attempt_repair self cleaned
     end)
    (fun exc =>
       match exc with
       | HTTPException _ _ => raise exc
       | Exception message =>
           logger_exception (lit "Gemini Vision API error") ;;;
           raise (HTTPException 502 (lit "Gemini Vision API Error: " ++ message))
       | BaseException _ => raise exc
       end).
End Pipeline.

(** ** The Locator and the Repair Engine as the specification words them *)

(** [s.find(c)] and [s.rfind(c)] for one character: the index of its
    first, respectively last, occurrence. *)
Fixpoint find (s : str) (c : char) : option nat :=
  match s with
  | [] => None
  | x :: t => if N.eqb x c then Some 0 else option_map S (find t c)
  end.

Fixpoint rfind (s : str) (c : char) : option nat :=
  match s with
  | [] => None
  | x :: t =>
      match rfind t c with
      | Some j => Some (S j)
      | None => if N.eqb x c then Some 0 else None
      end
  end.

(** [s[i:j]] *)
Definition slice (s : str) (i j : nat) : str := firstn (j - i) (skipn i s).

(** Steps 1 to 5 of the JSON Locator of the specification: trim, delete
    the fence markers, trim again, then the span from the first opening
    brace to the last closing brace when the latter comes later. *)
Definition locator_spec (text : str) : str :=
  let trimmed := strip text in
  let unfenced := replace (replace trimmed fence_json []) fence [] in
  let remaining := strip unfenced in
  match find remaining Ch.lbrace, rfind remaining Ch.rbrace with
  | Some i, Some j => if i <? j then slice remaining i (S j) else remaining
  | _, _ => remaining
  end.

(** The two heuristics of the Repair Engine, each a rewriting of the
    original candidate that may not apply. *)
Definition missing_trailing_brace (candidate : str) : option str :=
  if Nat.eqb (count candidate [Ch.lbrace]) (count candidate [Ch.rbrace] + 1)
  then Some (candidate ++ [Ch.rbrace])
  else None.

Definition trailing_commas (candidate : str) : option str :=
  Some (replace (replace candidate [Ch.comma; Ch.rbrace] [Ch.rbrace])
          [Ch.comma; Ch.rbracket] [Ch.rbracket]).

Definition heuristics : list (str -> option str) :=
  [missing_trailing_brace; trailing_commas].

(** The first heuristic, in order, whose output decodes. *)
Fixpoint first_accepted (hs : list (str -> option str)) (candidate : str)
  : option pyobj :=
  match hs with
  | [] => None
  | h :: hs' =>
      match h candidate with
      | Some repaired =>
          match json_loads repaired with
          | Some v => Some v
          | None => first_accepted hs' candidate
          end
      | None => first_accepted hs' candidate
      end
  end.

Definition repair_spec (candidate : str) : option pyobj :=
  first_accepted heuristics candidate.

(** The texts of well-formed JSON objects inside a text: the substrings,
    by position, that start with an opening brace, end with a closing
    brace and decode to a dict. *)
Definition substrings (s : str) : list str :=
  flat_map (fun i => map (fun n => slice s i (i + n)) (seq 1 (length s - i)))
           (seq 0 (length s)).

Definition is_object_text (s : str) : bool :=
  match s, json_loads s with
  | c :: _, Some (PyDict _) => N.eqb c Ch.lbrace && N.eqb (last s 0%N) Ch.rbrace
  | _, _ => false
  end.

Definition object_texts (text : str) : list str :=
  filter is_object_text (substrings text).

(** The request [analyze_image_with_prompt] sends for given arguments. *)
Definition sent_request (self : GeminiClient) (image_bytes : list N)
    (prompt mime_type : str) : request :=
  {| req_model := model_name self;
     req_image := {| mime_type := mime_type; data := image_bytes |};
     req_prompt := prompt |}.

(** A model that answers every call with the same text. *)
Definition answers (t : str) : request -> reply := fun _ => Returns (Text t).

Definition log_error (w : world) (msg : str) : world :=
  {| calls := calls w; records := records w ++ [LogError msg] |}.

(** ** Deleting fence markers: the notions used to reason about it *)

(** A character that stands for itself inside a JSON string. *)
Definition plain (c : char) : bool :=
  negb (N.eqb c Ch.dquote) && negb (N.eqb c Ch.backslash) && negb (N.ltb c 32).

(** A marker starts with a backtick and is made of plain characters. *)
Definition marker (p : str) : bool :=
  match p with
  | [] => false
  | c :: _ => N.eqb c Ch.backtick && forallb plain p
  end.

(** [deleted p s s']: [s'] is [s] with some occurrences of [p] left out. *)
Inductive deleted (p : str) : str -> str -> Prop :=
| deleted_nil : deleted p [] []
| deleted_keep (c : char) (s s' : str) :
    deleted p s s' -> deleted p (c :: s) (c :: s')
| deleted_drop (s s' : str) :
    deleted p s s' -> deleted p (p ++ s) s'.

(** What follows a JSON string, without decoding it; [s] starts after the
    opening quote. *)
Fixpoint strrest (s : str) : option str :=
  match s with
  | [] => None
  | c :: t =>
      if N.eqb c Ch.dquote then Some t
      else if N.eqb c Ch.backslash then
        match t with
        | [] => None
        | esc :: t1 =>
            if N.eqb esc 117 then
              match t1 with
              | h1 :: h2 :: h3 :: h4 :: t2 =>
                  match _decode_uXXXX h1 h2 h3 h4 with
                  | None => None
                  | Some _ => strrest t2
                  end
              | _ => None
              end
            else
              match BACKSLASH esc with
              | None => None
              | Some _ => strrest t1
              end
        end
      else if N.ltb c 32 then None
      else strrest t
  end.

(** What may follow a value in a text that decodes: nothing, whitespace,
    a comma or a closing bracket or brace. *)
Definition follow_ok (r : str) : bool :=
  match r with
  | [] => true
  | c :: _ =>
      is_ws c || N.eqb c Ch.comma || N.eqb c Ch.rbrace || N.eqb c Ch.rbracket
  end.

(** The two deletions of the Locator. *)
Definition unfence (s : str) : str :=
  replace (replace s fence_json []) fence [].

(** ** [sub in s] *)

(** [sub in s] for strings: [sub] occurs somewhere in [s]. *)
Fixpoint contains (s sub : str) : bool :=
  startswith s sub ||
  match s with
  | [] => false
  | _ :: t => contains t sub
  end.

(** The number of copies of [c] at the head of [s]. *)
Fixpoint lead (c : char) (s : str) : nat :=
  match s with
  | [] => 0
  | x :: t => if N.eqb x c then S (lead c t) else 0
  end.

(** ** Construction: [GeminiClient.__init__] *)

(** [app.core.config.settings] is not among the sources at hand; the
    client reads two values from it, each a string or [None]. *)
Record Settings : Type :=
  { GEMINI_API_KEY : option str; GEMINI_MODEL : option str }.

(** Truth value of an optional string: [None] and [""] are false. *)
Definition truthy (o : option str) : bool :=
  match o with
  | Some (_ :: _) => true
  | Some [] | None => false
  end.

(** [a or b] *)
Definition py_or (a b : option str) : option str :=
  if truthy a then a else b.

(** What a call of the constructor does: the client it builds together
    with the key handed to [genai.configure], or the [ValueError] raised
    before anything is configured. *)
Inductive construction : Type :=
| Constructed (self : GeminiClient) (configured_key : str)
| ConstructionError (e : exception).

Definition __init__ (settings : Settings) (api_key model_name : option str)
  : construction :=
  let api_key := py_or api_key (GEMINI_API_KEY settings) in
  let model_name := py_or model_name (GEMINI_MODEL settings) in
  match api_key with
  | Some (c :: k) =>
      match model_name with
      | Some (d :: m) =>
          Constructed {| api_key := c :: k; model_name := d :: m |} (c :: k)
      | Some [] | None => ConstructionError (Exception (lit "Missing GEMINI_MODEL."))
      end
  | Some [] | None => ConstructionError (Exception (lit "Missing GEMINI_API_KEY."))
  end.

(** ** Listing: [GeminiClient.list_models] *)

(** A model object as [list_models] looks at it: the outcome of
    [to_dict()] when the object has that method, its attribute [name]
    when it has one, and its [str()]. *)
Record model_object : Type :=
  { m_to_dict : option (list (str * pyobj) + exception);
    m_name : option pyobj;
    m_str : str }.

(** What iterating over [genai.list_models()] gives: the models yielded,
    and the exception that ends the iteration early, if any. *)
Record listing : Type :=
  { yielded : list model_object; failure : option exception }.

(** One element of the list comprehension. *)
Definition describe (m : model_object) : pyobj + exception :=
  match m_to_dict m with
  | Some (inl d) => inl (PyDict d)
  | Some (inr e) => inr e
  | None =>
      inl (PyDict [(lit "name",
                    match m_name m with
                    | Some n => n
                    | None => PyStr (m_str m)
                    end)])
  end.

(** The list comprehension over the iteration. *)
Fixpoint describe_all (ms : list model_object) (fail : option exception)
  : list pyobj + exception :=
  match ms with
  | [] =>
      match fail with
      | Some e => inr e
      | None => inl []
      end
  | m :: ms' =>
      match describe m with
      | inr e => inr e
      | inl d =>
          match describe_all ms' fail with
          | inl ds => inl (d :: ds)
          | inr e => inr e
          end
      end
  end.

Section Listing.
(** The service: what [genai.list_models()] gives to this call. *)
Variable models : listing.
(** [str()] of an [HTTPException], which the library decides. *)
Variable http_str : Z -> str -> str.

Definition exception_str (e : exception) : str :=
  match e with
  | HTTPException status_code detail => http_str status_code detail
  | Exception message | BaseException message => message
  end.

Definition list_models (self : GeminiClient) : M (list pyobj) :=
  try_except
    (fun w =>
       match describe_all (yielded models) (failure models) with
       | inl ds => (inl ds, w)
       | inr e => (inr e, w)
       end)
    (fun exc =>
       match exc with
       | BaseException _ => raise exc
       | HTTPException _ _ | Exception _ =>
           logger_exception (lit "Failed to list models") ;;;
           raise (HTTPException 502
                    (lit "Failed to list models: " ++ exception_str exc))
       end).
End Listing.

(** ** Effects of the pipeline *)

(** The world after the model has answered and the two diagnostic
    records have been written. *)
Definition after_reply (w : world) (req : request) (raw_text : str) : world :=
  {| calls := calls w ++ [req];
     records := records w ++
                [LogError (lit "RAW GEMINI OUTPUT:" ++ [Ch.lf] ++ raw_text);
                 LogError (lit "CLEANED JSON CANDIDATE:" ++ [Ch.lf]
                           ++ _extract_json raw_text)] |}.

(** ** Basic facts about the string primitives *)

Lemma eqb_char_eq (a b : char) : N.eqb a b = true -> a = b.
Proof. apply N.eqb_eq. Qed.

Lemma rstrip_nonspace_last (s : str) (c : char) :
  isspace c = false -> rstrip (s ++ [c]) = s ++ [c].
Proof.
  intros Hc. induction s as [|x s IH]; simpl.
  - now rewrite Hc.
  - rewrite IH. destruct (s ++ [c]) eqn:E; [now destruct s|reflexivity].
Qed.

Lemma match_star_rbrace_last (s m : str) :
  match_star_rbrace s = Some m -> exists m', m = m' ++ [Ch.rbrace].
Proof.
  revert m. induction s as [|c t IH]; simpl; intros m H; [discriminate|].
  destruct (match_star_rbrace t) as [m0|].
  - injection H as <-. destruct (IH _ eq_refl) as [m' ->].
    now exists (c :: m').
  - destruct (N.eqb c Ch.rbrace) eqn:E; [|discriminate].
    injection H as <-. apply eqb_char_eq in E as ->. now exists [].
Qed.

(** The match of the pattern starts with a brace and ends with one, so
    stripping it changes nothing. *)
Lemma strip_match (s m : str) : re_search_object s = Some m -> strip m = m.
Proof.
  revert m. induction s as [|c t IH]; simpl; intros m H; [discriminate|].
  destruct (N.eqb c Ch.lbrace) eqn:E; [|now apply IH].
  destruct (match_star_rbrace t) as [m0|] eqn:Em; [|now apply IH].
  injection H as <-. apply eqb_char_eq in E as ->.
  destruct (match_star_rbrace_last _ Em) as [m' ->].
  unfold strip. cbn [lstrip]. change (isspace Ch.lbrace) with false. cbv iota.
  change (Ch.lbrace :: m' ++ [Ch.rbrace]) with ((Ch.lbrace :: m') ++ [Ch.rbrace]).
  now apply rstrip_nonspace_last.
Qed.

Lemma match_star_rbrace_rfind (s : str) :
  match_star_rbrace s = option_map (fun j => firstn (S j) s) (rfind s Ch.rbrace).
Proof.
  induction s as [|c t IH]; [reflexivity|].
  cbn [match_star_rbrace rfind]. rewrite IH.
  destruct (rfind t Ch.rbrace) as [j|]; [reflexivity|].
  cbn [option_map]. now destruct (N.eqb c Ch.rbrace).
Qed.

(** The leftmost greedy match is the span from the first opening brace to
    the last closing brace, and exists when the latter comes later. *)
Lemma re_search_object_span (s : str) :
  re_search_object s =
  match find s Ch.lbrace, rfind s Ch.rbrace with
  | Some i, Some j => if i <? j then Some (slice s i (S j)) else None
  | _, _ => None
  end.
Proof.
  induction s as [|c t IH]; [reflexivity|].
  cbn [re_search_object find rfind].
  destruct (N.eqb c Ch.lbrace) eqn:E.
  - apply eqb_char_eq in E as ->. change (N.eqb Ch.lbrace Ch.rbrace) with false.
    rewrite match_star_rbrace_rfind.
    destruct (rfind t Ch.rbrace) as [j|] eqn:Er; cbn [option_map].
    + reflexivity.
    + rewrite IH. now destruct (find t Ch.lbrace).
  - rewrite IH.
    destruct (find t Ch.lbrace) as [i|]; cbn [option_map].
    + destruct (rfind t Ch.rbrace) as [j|].
      * change (S i <? S j) with (i <? j). reflexivity.
      * now destruct (N.eqb c Ch.rbrace).
    + destruct (rfind t Ch.rbrace) as [j|]; [reflexivity|].
      now destruct (N.eqb c Ch.rbrace).
Qed.

(** C3.  For every input string the JSON Locator computes the ordered
    steps of the specification: trim; delete every ["```json"], then every
    ["```"]; trim again; when an opening brace is followed later by a
    closing brace return the greedy span from the first opening brace to
    the last closing brace, otherwise the trimmed, fence-stripped text. *)
Theorem C3_locator_steps (text : str) : _extract_json text = locator_spec text.
Proof.
  unfold _extract_json, locator_spec.
  set (remaining := strip (replace (replace (strip text) fence_json []) fence [])).
  destruct (re_search_object remaining) as [m|] eqn:E.
  - rewrite (strip_match _ E). rewrite re_search_object_span in E.
    destruct (find remaining Ch.lbrace) as [i|]; [|discriminate].
    destruct (rfind remaining Ch.rbrace) as [j|]; [|discriminate].
    destruct (i <? j); [now injection E|discriminate].
  - rewrite re_search_object_span in E.
    destruct (find remaining Ch.lbrace) as [i|]; [|reflexivity].
    destruct (rfind remaining Ch.rbrace) as [j|]; [|reflexivity].
    destruct (i <? j); [discriminate|reflexivity].
Qed.

(** ** The Repair Engine *)

Ltac unfold_repair :=
  unfold _attempt_repair, repair_spec, heuristics, first_accepted,
    missing_trailing_brace, trailing_commas;
  change (lit "{") with [Ch.lbrace]; change (lit "}") with [Ch.rbrace];
  change (lit ",}") with [Ch.comma; Ch.rbrace];
  change (lit ",]") with [Ch.comma; Ch.rbracket];
  change (lit "]") with [Ch.rbracket].

(** What the Repair Engine returns or raises. *)
Lemma attempt_repair_result (self : GeminiClient) (text : str) (w : world) :
  fst (_attempt_repair self text w) =
  match repair_spec text with
  | Some v => inl v
  | None => inr repair_failed
  end.
Proof.
  unfold_repair.
  destruct (Nat.eqb (count text [Ch.lbrace]) (count text [Ch.rbrace] + 1)).
  - destruct (json_loads (text ++ [Ch.rbrace])); [reflexivity|].
    now destruct (json_loads _).
  - now destruct (json_loads _).
Qed.

(** C4.  The Repair Engine tries exactly two heuristics in order, each
    accepted only when a full decode of its output succeeds: a closing
    brace is appended if and only if the candidate has exactly one more
    opening than closing brace; the trailing-comma replacements are applied
    to the original candidate, also after the first heuristic was tried and
    failed; when neither output decodes the repair-failed error is raised. *)
Theorem C4_repair_two_heuristics (self : GeminiClient) (text : str) (w : world) :
  _attempt_repair self text w =
  match repair_spec text with
  | Some v => (inl v, w)
  | None => (inr repair_failed, log_error w (lit "JSON repair failed"))
  end.
Proof.
  unfold_repair.
  destruct (Nat.eqb (count text [Ch.lbrace]) (count text [Ch.rbrace] + 1)).
  - destruct (json_loads (text ++ [Ch.rbrace])); [reflexivity|].
    now destruct (json_loads _).
  - now destruct (json_loads _).
Qed.

(** The pipeline on a response text: the candidate is decoded, and only
    when that fails is the Repair Engine asked. *)
Lemma analyze_on_text (generate_content : request -> reply) (self : GeminiClient)
    (image_bytes : list N) (prompt : str) (mime : option str)
    (resp : response) (w : world) :
  generate_content
    (sent_request self image_bytes prompt
       (match mime with Some m => m | None => lit "image/jpeg" end)) = Returns resp ->
  fst (analyze_image_with_prompt generate_content self image_bytes prompt mime w) =
  let cleaned := _extract_json (text_or_empty resp) in
  match json_loads cleaned with
  | Some v => inl v
  | None =>
      match repair_spec cleaned with
      | Some v => inl v
      | None => inr repair_failed
      end
  end.
Proof.
  intros H. unfold analyze_image_with_prompt, try_except, bind, model_call.
  unfold sent_request in H. rewrite H. cbn [logger_error].
  cbv zeta.
  destruct (json_loads (_extract_json (text_or_empty resp))); [reflexivity|].
  match goal with
  | |- context [_attempt_repair ?a ?b ?c] =>
      pose proof (attempt_repair_result a b c) as R;
      destruct (_attempt_repair a b c) as [[v|e] w']
  end; cbn [fst] in R; destruct (repair_spec _); try discriminate R.
  - now injection R as ->.
  - now injection R as ->.
Qed.

(** The pipeline on a model that answers with the text [t]. *)
Lemma analyze_answers (t : str) (self : GeminiClient) (image_bytes : list N)
    (prompt : str) (mime : option str) (w : world) :
  fst (analyze_image_with_prompt (answers t) self image_bytes prompt mime w) =
  match json_loads (_extract_json t) with
  | Some v => inl v
  | None =>
      match repair_spec (_extract_json t) with
      | Some v => inl v
      | None => inr repair_failed
      end
  end.
Proof.
  exact (analyze_on_text (answers t) self image_bytes prompt mime w
           (resp := Text t) eq_refl).
Qed.

(** C5.  The text [{"a": 1, "b": 2] lacks its closing brace: the Locator
    leaves it as it is, the strict decode fails, the first heuristic
    appends one brace, and the pipeline returns the object
    [{"a": 1, "b": 2}]. *)
Theorem C5_missing_brace_roundtrip (generate_content : request -> reply)
    (self : GeminiClient) (image_bytes : list N) (prompt : str)
    (mime : option str) (w : world) :
  generate_content
    (sent_request self image_bytes prompt
       (match mime with Some m => m | None => lit "image/jpeg" end))
  = Returns (Text (lit "{'a': 1, 'b': 2")) ->
  json_loads (_extract_json (lit "{'a': 1, 'b': 2")) = None /\
  missing_trailing_brace (_extract_json (lit "{'a': 1, 'b': 2"))
  = Some (lit "{'a': 1, 'b': 2}") /\
  json_loads (lit "{'a': 1, 'b': 2}")
  = Some (PyDict [(lit "a", PyInt 1); (lit "b", PyInt 2)]) /\
  fst (analyze_image_with_prompt generate_content self image_bytes prompt mime w)
  = inl (PyDict [(lit "a", PyInt 1); (lit "b", PyInt 2)]).
Proof.
  intros H.
  split; [vm_compute; reflexivity|].
  split; [vm_compute; reflexivity|].
  split; [vm_compute; reflexivity|].
  rewrite (analyze_on_text _ _ _ _ _ w H). vm_compute. reflexivity.
Qed.

Lemma C5_missing_brace_roundtrip_witness :
  answers (lit "{'a': 1, 'b': 2")
    (sent_request {| api_key := lit "key"; model_name := lit "gemini" |}
       [255%N; 216%N] (lit "describe") (lit "image/jpeg"))
  = Returns (Text (lit "{'a': 1, 'b': 2")) /\
  fst (analyze_image_with_prompt (answers (lit "{'a': 1, 'b': 2"))
         {| api_key := lit "key"; model_name := lit "gemini" |}
         [255%N; 216%N] (lit "describe") None no_effects)
  = inl (PyDict [(lit "a", PyInt 1); (lit "b", PyInt 2)]).
Proof.
  split; [reflexivity|].
  exact (proj2 (proj2 (proj2
    (@C5_missing_brace_roundtrip (answers (lit "{'a': 1, 'b': 2"))
       {| api_key := lit "key"; model_name := lit "gemini" |}
       [255%N; 216%N] (lit "describe") None no_effects eq_refl)))).
Defined.

(** C2, as stated, fails on its own example: after the replacements the
    stray [atch] is still there, the text does not decode and the
    pipeline raises the repair-failed error. *)
Lemma C2_literal_example_not_repaired :
  trailing_commas (lit "{'a': 1, 'b': [1, 2,]atch,}")
  = Some (lit "{'a': 1, 'b': [1, 2]atch}") /\
  json_loads (lit "{'a': 1, 'b': [1, 2]atch}") = None /\
  fst (analyze_image_with_prompt (answers (lit "{'a': 1, 'b': [1, 2,]atch,}"))
         {| api_key := lit "key"; model_name := lit "gemini" |}
         [] (lit "describe") None no_effects)
  = inr repair_failed.
Proof.
  split; [vm_compute; reflexivity|].
  split; [vm_compute; reflexivity|].
  rewrite analyze_answers. vm_compute. reflexivity.
Qed.

(** C2, amended.  On the candidate [{"a": 1, "b": [1, 2,],}], whose only
    defects are commas directly before a closing bracket and a closing
    brace, the strict decode fails, the first heuristic does not apply, the
    trailing-comma heuristic yields [{"a": 1, "b": [1, 2]}], and the Repair
    Engine and the pipeline return that object instead of an error. *)
Theorem C2_trailing_commas_repaired (self : GeminiClient)
    (image_bytes : list N) (prompt : str) (mime : option str) (w : world) :
  let candidate := lit "{'a': 1, 'b': [1, 2,],}" in
  let repaired := PyDict [(lit "a", PyInt 1); (lit "b", PyList [PyInt 1; PyInt 2])] in
  _extract_json candidate = candidate /\
  json_loads candidate = None /\
  missing_trailing_brace candidate = None /\
  trailing_commas candidate = Some (lit "{'a': 1, 'b': [1, 2]}") /\
  fst (_attempt_repair self candidate w) = inl repaired /\
  fst (analyze_image_with_prompt (answers candidate) self image_bytes prompt mime w)
  = inl repaired.
Proof.
  cbv zeta.
  split; [vm_compute; reflexivity|].
  split; [vm_compute; reflexivity|].
  split; [vm_compute; reflexivity|].
  split; [vm_compute; reflexivity|].
  split.
  - rewrite attempt_repair_result. vm_compute. reflexivity.
  - rewrite analyze_answers. vm_compute. reflexivity.
Qed.

(** C6.  The example of the specification is classified as unparseable,
    but a text without any opening brace that is itself JSON, such as
    [42], is decoded and returned: the pipeline neither raises nor checks
    that the value is a dict. *)
Theorem C6_no_brace_text_returned (self : GeminiClient)
    (image_bytes : list N) (prompt : str) (mime : option str) (w : world) :
  fst (analyze_image_with_prompt (answers (lit "I cannot analyze this image."))
         self image_bytes prompt mime w) = inr repair_failed /\
  count (lit "42") (lit "{") = 0 /\
  fst (analyze_image_with_prompt (answers (lit "42"))
         self image_bytes prompt mime w) = inl (PyInt 42).
Proof.
  split; [rewrite analyze_answers; vm_compute; reflexivity|].
  split; [vm_compute; reflexivity|].
  rewrite analyze_answers. vm_compute. reflexivity.
Qed.

(** C8.  The pipeline succeeds with values that are not dicts: a list
    decoded directly, and a list obtained through the trailing-comma
    repair. *)
Theorem C8_result_not_always_dict (self : GeminiClient)
    (image_bytes : list N) (prompt : str) (mime : option str) (w : world) :
  fst (analyze_image_with_prompt (answers (lit "[1, 2]"))
         self image_bytes prompt mime w) = inl (PyList [PyInt 1; PyInt 2]) /\
  fst (analyze_image_with_prompt (answers (lit "[1, 2,]"))
         self image_bytes prompt mime w) = inl (PyList [PyInt 1; PyInt 2]) /\
  is_dict (PyList [PyInt 1; PyInt 2]) = false.
Proof.
  split; [rewrite analyze_answers; vm_compute; reflexivity|].
  split; [rewrite analyze_answers; vm_compute; reflexivity|].
  reflexivity.
Qed.

(** C10.  The trailing-comma replacement also rewrites the inside of
    string literals: there is a candidate that does not decode, that the
    Repair Engine repairs, and whose repaired value holds the string [x}]
    where the candidate wrote [x,}]. *)
Theorem C10_replacement_inside_strings :
  exists (candidate : str) (written returned : str),
    candidate = lit "{'a': 'x,}', 'b': [1,]}" /\
    json_loads candidate = None /\
    json_loads (lit "{'a': 'x,}', 'b': [1]}")
    = Some (PyDict [(lit "a", PyStr written); (lit "b", PyList [PyInt 1])]) /\
    (forall self w,
        fst (_attempt_repair self candidate w)
        = inl (PyDict [(lit "a", PyStr returned); (lit "b", PyList [PyInt 1])])) /\
    written = lit "x,}" /\ returned = lit "x}" /\ written <> returned.
Proof.
  exists (lit "{'a': 'x,}', 'b': [1,]}"), (lit "x,}"), (lit "x}").
  split; [reflexivity|].
  split; [vm_compute; reflexivity|].
  split; [vm_compute; reflexivity|].
  split; [intros self w; rewrite attempt_repair_result; vm_compute; reflexivity|].
  split; [reflexivity|].
  split; [reflexivity|].
  vm_compute. discriminate.
Qed.

(** C7.  When the model invocation raises an exception (one that is not
    already an [HTTPException]), the pipeline raises [HTTPException] 502
    whose detail carries the cause; the only log record written is the one
    of the handler, so neither the Locator nor the decoder nor the Repair
    Engine ran. *)
Theorem C7_model_failure_is_upstream_error (generate_content : request -> reply)
    (self : GeminiClient) (image_bytes : list N) (prompt : str)
    (mime : option str) (cause : str) (w : world) :
  generate_content
    (sent_request self image_bytes prompt
       (match mime with Some m => m | None => lit "image/jpeg" end))
  = Raises (Exception cause) ->
  analyze_image_with_prompt generate_content self image_bytes prompt mime w
  = (inr (HTTPException 502 (lit "Gemini Vision API Error: " ++ cause)),
     {| calls := calls w ++
                 [sent_request self image_bytes prompt
                    (match mime with Some m => m | None => lit "image/jpeg" end)];
        records := records w ++ [LogException (lit "Gemini Vision API error")] |}).
Proof.
  intros H. unfold analyze_image_with_prompt, try_except, bind, model_call.
  unfold sent_request in *. rewrite H. reflexivity.
Qed.

Lemma C7_model_failure_is_upstream_error_witness :
  (fun _ : request => Raises (Exception (lit "deadline exceeded")))
    (sent_request {| api_key := lit "key"; model_name := lit "gemini" |}
       [255%N; 216%N] (lit "describe") (lit "image/png"))
  = Raises (Exception (lit "deadline exceeded")) /\
  analyze_image_with_prompt (fun _ => Raises (Exception (lit "deadline exceeded")))
    {| api_key := lit "key"; model_name := lit "gemini" |}
    [255%N; 216%N] (lit "describe") (Some (lit "image/png")) no_effects
  = (inr (HTTPException 502
            (lit "Gemini Vision API Error: " ++ lit "deadline exceeded")),
     {| calls := calls no_effects ++
                 [sent_request {| api_key := lit "key"; model_name := lit "gemini" |}
                    [255%N; 216%N] (lit "describe") (lit "image/png")];
        records := records no_effects ++
                   [LogException (lit "Gemini Vision API error")] |}).
Proof.
  split; [reflexivity|].
  exact (@C7_model_failure_is_upstream_error
           (fun _ => Raises (Exception (lit "deadline exceeded")))
           {| api_key := lit "key"; model_name := lit "gemini" |}
           [255%N; 216%N] (lit "describe") (Some (lit "image/png"))
           (lit "deadline exceeded") no_effects eq_refl).
Defined.

(** The outbound calls of the pipeline: exactly one, whatever the model
    answers. *)
Lemma analyze_calls (generate_content : request -> reply) (self : GeminiClient)
    (image_bytes : list N) (prompt : str) (mime : option str) (w : world) :
  calls (snd (analyze_image_with_prompt generate_content self image_bytes prompt mime w))
  = calls w ++
    [sent_request self image_bytes prompt
       (match mime with Some m => m | None => lit "image/jpeg" end)].
Proof.
  unfold analyze_image_with_prompt, try_except, bind, model_call.
  fold (sent_request self image_bytes prompt
          (match mime with Some m => m | None => lit "image/jpeg" end)).
  destruct (generate_content _) as [resp|[code detail|message|message]];
    try reflexivity.
  cbn [logger_error]. cbv zeta.
  destruct (json_loads (_extract_json (text_or_empty resp))); [reflexivity|].
  unfold _attempt_repair.
  match goal with
  | |- context [if ?b then _ else _] => destruct b
  end.
  - destruct (json_loads (_ ++ _)); [reflexivity|].
    now destruct (json_loads _).
  - now destruct (json_loads _).
Qed.

(** C9.  [mime_type] is optional: a call that leaves it out behaves as the
    call with ["image/jpeg"], and the request sent to the model carries
    that type. *)
Theorem C9_default_mime_type (generate_content : request -> reply)
    (self : GeminiClient) (image_bytes : list N) (prompt : str) (w : world) :
  analyze_image_with_prompt generate_content self image_bytes prompt None w
  = analyze_image_with_prompt generate_content self image_bytes prompt
      (Some (lit "image/jpeg")) w /\
  calls (snd (analyze_image_with_prompt generate_content self image_bytes prompt None w))
  = calls w ++
    [{| req_model := model_name self;
        req_image := {| mime_type := lit "image/jpeg"; data := image_bytes |};
        req_prompt := prompt |}].
Proof.
  split; [reflexivity|]. apply analyze_calls.
Qed.

(** ** Facts about [startswith], [replace] and [strip] *)

Lemma startswith_split (p s : str) :
  startswith s p = true -> s = p ++ skipn (length p) s.
Proof.
  revert s. induction p as [|x p IH]; intros s H; [reflexivity|].
  destruct s as [|c s]; [discriminate|]. cbn in H.
  apply andb_prop in H as [Hc Hs]. apply N.eqb_eq in Hc as ->.
  cbn. f_equal. now apply IH.
Qed.

Lemma startswith_self (p r : str) : startswith (p ++ r) p = true.
Proof.
  induction p as [|x p IH]; [reflexivity|].
  cbn. now rewrite N.eqb_refl, IH.
Qed.

Lemma startswith_extend (p a r : str) :
  startswith a p = true -> startswith (a ++ r) p = true.
Proof.
  revert a. induction p as [|x p IH]; intros a H; [reflexivity|].
  destruct a as [|y a]; [discriminate|]. cbn in *.
  apply andb_prop in H as [-> H]. now rewrite IH.
Qed.

Lemma startswith_before (p a b : str) (c : char) :
  ~ In c p -> startswith (a ++ c :: b) p = true -> startswith a p = true.
Proof.
  revert a. induction p as [|x p IH]; intros a Hc H; [reflexivity|].
  destruct a as [|y a]; cbn in *.
  - apply andb_prop in H as [H _]. apply N.eqb_eq in H. subst. tauto.
  - apply andb_prop in H as [-> H]. apply IH; tauto.
Qed.

Lemma replace_from_skip (old new a r : str) :
  replace_from old new (length a) (a ++ r) = replace_from old new 0 r.
Proof.
  induction a as [|x a IH]; [|exact IH].
  destruct r; reflexivity.
Qed.

Lemma replace_from_match (old new r : str) :
  old <> [] ->
  replace_from old new 0 (old ++ r) = new ++ replace_from old new 0 r.
Proof.
  destruct old as [|c q]; [congruence|]. intros _.
  cbn [app replace_from].
  change (c :: q ++ r) with ((c :: q) ++ r). rewrite startswith_self.
  cbn [length]. rewrite Nat.sub_1_r. cbn [Nat.pred].
  now rewrite replace_from_skip.
Qed.

Lemma replace_from_nomatch (old new t : str) (c : char) :
  startswith (c :: t) old = false ->
  replace_from old new 0 (c :: t) = c :: replace_from old new 0 t.
Proof. intros H. cbn [replace_from]. now rewrite H. Qed.

Lemma replace_from_deleted (p s : str) :
  p <> [] -> deleted p s (replace_from p [] 0 s).
Proof.
  intros Hp. remember (length s) as n eqn:Hn.
  revert s Hn. induction n as [n IH] using lt_wf_ind. intros s ->.
  destruct s as [|c t]; [constructor|].
  destruct (startswith (c :: t) p) eqn:E.
  - rewrite (@startswith_split _ _ E). rewrite replace_from_match by assumption.
    apply deleted_drop. eapply IH; [|reflexivity].
    rewrite (@startswith_split _ _ E) at 2. rewrite length_app.
    destruct p; [congruence|cbn; lia].
  - rewrite replace_from_nomatch by assumption. apply deleted_keep.
    eapply IH; [|reflexivity]. cbn. lia.
Qed.

Lemma replace_from_In (p s : str) (k : nat) (x : char) :
  In x (replace_from p [] k s) -> In x s.
Proof.
  revert k. induction s as [|c t IH]; intros k H; [exact H|].
  cbn [replace_from] in H. destruct k as [|k].
  - destruct (startswith (c :: t) p).
    + right. eapply IH. exact H.
    + destruct H as [H|H]; [now left|right; eapply IH; exact H].
  - right. eapply IH. exact H.
Qed.

(** A character that does not occur in [old] separates the text into two
    parts that are rewritten independently. *)
Lemma replace_from_separated (old new a b : str) (c : char) :
  old <> [] -> ~ In c old ->
  replace_from old new 0 (a ++ c :: b)
  = replace_from old new 0 a ++ c :: replace_from old new 0 b.
Proof.
  intros Hp Hc. remember (length a) as n eqn:Hn.
  revert a Hn. induction n as [n IH] using lt_wf_ind. intros a ->.
  destruct a as [|y a].
  - cbn [app]. rewrite replace_from_nomatch; [reflexivity|].
    destruct old as [|x q]; [congruence|]. cbn.
    destruct (N.eqb c x) eqn:E; [|reflexivity].
    apply N.eqb_eq in E. subst. cbn in Hc. tauto.
  - destruct (startswith ((y :: a) ++ c :: b) old) eqn:E.
    + pose proof (@startswith_before old (y :: a) b c Hc E) as Ea.
      rewrite (@startswith_split _ _ Ea). rewrite <- app_assoc.
      rewrite !replace_from_match by assumption.
      rewrite <- app_assoc. f_equal.
      eapply IH; [|reflexivity].
      rewrite (@startswith_split _ _ Ea) at 2. rewrite length_app.
      destruct old; [congruence|cbn; lia].
    + assert (Ea : startswith (y :: a) old = false).
      { destruct (startswith (y :: a) old) eqn:Ea; [|reflexivity].
        now rewrite (@startswith_extend old (y :: a) (c :: b) Ea) in E. }
      cbn [app] in *. rewrite !replace_from_nomatch by assumption.
      cbn [app]. f_equal. eapply IH; [|reflexivity]. cbn. lia.
Qed.

Lemma lstrip_In (s : str) (x : char) : In x (lstrip s) -> In x s.
Proof.
  induction s as [|c t IH]; [easy|]. cbn.
  destruct (isspace c); [intros H; right; now apply IH|easy].
Qed.

Lemma rstrip_In (s : str) (x : char) : In x (rstrip s) -> In x s.
Proof.
  induction s as [|c t IH]; [easy|]. cbn.
  destruct (rstrip t) as [|y t'].
  - destruct (isspace c); [easy|]. intros [H|[]]. now left.
  - intros [H|H]; [now left|right; now apply IH].
Qed.

Lemma lstrip_app_nonspace (a b : str) (c : char) :
  isspace c = false -> lstrip (a ++ c :: b) = lstrip a ++ c :: b.
Proof.
  intros Hc. induction a as [|y a IH]; cbn.
  - now rewrite Hc.
  - destruct (isspace y); [exact IH|reflexivity].
Qed.

Lemma rstrip_app_nonspace (a b : str) (c : char) :
  isspace c = false -> rstrip (a ++ c :: b) = a ++ c :: rstrip b.
Proof.
  intros Hc. induction a as [|y a IH]; cbn.
  - destruct (rstrip b); [now rewrite Hc|reflexivity].
  - rewrite IH. now destruct a.
Qed.

(** ** The search between brace-free surroundings *)

Lemma match_star_rbrace_none (b : str) :
  ~ In Ch.rbrace b -> match_star_rbrace b = None.
Proof.
  induction b as [|c b IH]; [reflexivity|]. intros H. cbn.
  rewrite IH by (cbn in H; tauto).
  destruct (N.eqb c Ch.rbrace) eqn:E; [|reflexivity].
  apply N.eqb_eq in E. cbn in H. tauto.
Qed.

Lemma match_star_rbrace_last_brace (mid b : str) :
  ~ In Ch.rbrace b ->
  match_star_rbrace (mid ++ Ch.rbrace :: b) = Some (mid ++ [Ch.rbrace]).
Proof.
  intros Hb. induction mid as [|c mid IH]; cbn.
  - now rewrite match_star_rbrace_none.
  - cbn in IH. now rewrite IH.
Qed.

Lemma re_search_object_between (a mid b : str) :
  ~ In Ch.lbrace a -> ~ In Ch.rbrace b ->
  re_search_object (a ++ Ch.lbrace :: mid ++ Ch.rbrace :: b)
  = Some (Ch.lbrace :: mid ++ [Ch.rbrace]).
Proof.
  intros Ha Hb. induction a as [|c a IH]; cbn.
  - now rewrite match_star_rbrace_last_brace.
  - destruct (N.eqb c Ch.lbrace) eqn:E.
    + apply N.eqb_eq in E. cbn in Ha. tauto.
    + apply IH. cbn in Ha. tauto.
Qed.

(** ** Deletions: inversion *)

Lemma marker_inv (p : str) :
  marker p = true -> exists q, p = Ch.backtick :: q /\ forallb plain p = true.
Proof.
  destruct p as [|c q]; [discriminate|]. unfold marker.
  intros H. apply andb_prop in H as [Hc Hp].
  apply N.eqb_eq in Hc as ->. now exists q.
Qed.

Lemma deleted_nil_inv (p s' : str) :
  marker p = true -> deleted p [] s' -> s' = [].
Proof.
  intros Hp H. apply marker_inv in Hp as (q & -> & _).
  inversion H; try reflexivity; discriminate.
Qed.

Lemma deleted_cons_inv (p s s' : str) (c : char) :
  marker p = true -> c <> Ch.backtick -> deleted p (c :: s) s' ->
  exists t', s' = c :: t' /\ deleted p s t'.
Proof.
  intros Hp Hc H. apply marker_inv in Hp as (q & -> & _).
  inversion H; subst; [now eexists|congruence].
Qed.

Lemma deleted_app_inv (p w r s' : str) :
  marker p = true -> ~ In Ch.backtick w -> deleted p (w ++ r) s' ->
  exists r', s' = w ++ r' /\ deleted p r r'.
Proof.
  intros Hp. revert s'. induction w as [|c w IH]; intros s' Hw H.
  - now exists s'.
  - cbn in H. apply deleted_cons_inv in H as (t' & -> & H); trivial.
    + destruct (IH t') as (r' & -> & Hr); trivial.
      * cbn in Hw. tauto.
      * now exists r'.
    + cbn in Hw. intros ->. tauto.
Qed.

Lemma deleted_length (p s s' : str) : deleted p s s' -> length s' <= length s.
Proof.
  induction 1; cbn; try lia. rewrite length_app. lia.
Qed.

Lemma deleted_refl (p s : str) : deleted p s s.
Proof. induction s; now constructor. Qed.

(** ** Whitespace *)

Lemma skip_ws_length (s : str) : length (skip_ws s) <= length s.
Proof.
  induction s as [|c s IH]; cbn; [lia|]. destruct (is_ws c); cbn; lia.
Qed.

Lemma skip_ws_deleted (p s s' : str) :
  marker p = true -> deleted p s s' ->
  (exists t, skip_ws s = Ch.backtick :: t) \/ deleted p (skip_ws s) (skip_ws s').
Proof.
  intros Hp H. induction H as [|c s s' H IH|s s' H IH].
  - right. constructor.
  - cbn. destruct (is_ws c); [exact IH|]. right. now constructor.
  - left. apply marker_inv in Hp as (q & -> & _). now eexists.
Qed.

Lemma skip_ws_cons_deleted (p s s' t : str) (c : char) :
  marker p = true -> deleted p s s' -> skip_ws s = c :: t -> c <> Ch.backtick ->
  exists t', skip_ws s' = c :: t' /\ deleted p t t'.
Proof.
  intros Hp H E Hc. destruct (skip_ws_deleted Hp H) as [(t0 & E0)|D].
  - congruence.
  - rewrite E in D. now apply deleted_cons_inv in D.
Qed.

Lemma skip_ws_nil_deleted (p s s' : str) :
  marker p = true -> deleted p s s' -> skip_ws s = [] -> skip_ws s' = [].
Proof.
  intros Hp H E. destruct (skip_ws_deleted Hp H) as [(t0 & E0)|D].
  - congruence.
  - rewrite E in D. now apply deleted_nil_inv in D.
Qed.

Lemma follow_ok_skip_ws (s t : str) (c : char) :
  skip_ws s = c :: t ->
  c = Ch.comma \/ c = Ch.rbrace \/ c = Ch.rbracket ->
  follow_ok s = true.
Proof.
  destruct s as [|x s]; [discriminate|]. cbn.
  destruct (is_ws x) eqn:E; [reflexivity|].
  intros E1 Hc. injection E1 as -> _.
  destruct Hc as [Hc|[Hc|Hc]]; rewrite Hc in *; reflexivity.
Qed.

Lemma follow_ok_skip_ws_nil (s : str) : skip_ws s = [] -> follow_ok s = true.
Proof.
  destruct s as [|x s]; [reflexivity|]. cbn.
  destruct (is_ws x); [reflexivity|discriminate].
Qed.

(** ** Strings *)

Lemma chunk_rest (c : char) (r : option (str * str)) :
  option_map snd (chunk c r) = option_map snd r.
Proof. destruct r as [[v rest]|]; reflexivity. Qed.

(** Decoding a string succeeds exactly when [strrest] does, and leaves
    the same rest. *)
Lemma scanstring_strrest (s : str) : option_map snd (scanstring s) = strrest s.
Proof.
  remember (length s) as n eqn:Hn. revert s Hn.
  induction n as [n IH] using lt_wf_ind. intros s ->.
  destruct s as [|c t]; [reflexivity|]. cbn [scanstring strrest].
  destruct (N.eqb c Ch.dquote); [reflexivity|].
  destruct (N.eqb c Ch.backslash).
  - destruct t as [|esc t1]; [reflexivity|].
    destruct (N.eqb esc 117).
    + destruct t1 as [|h1 [|h2 [|h3 [|h4 t2]]]]; try reflexivity.
      destruct (_decode_uXXXX h1 h2 h3 h4) as [uni|]; [|reflexivity].
      assert (IH2 : option_map snd (scanstring t2) = strrest t2)
        by (eapply IH; [|reflexivity]; cbn; lia).
      destruct (is_high_surrogate uni); [|now rewrite chunk_rest].
      destruct t2 as [|b [|u [|l1 [|l2 [|l3 [|l4 t3]]]]]];
        try (now rewrite chunk_rest).
      destruct (N.eqb b Ch.backslash && N.eqb u 117) eqn:E;
        [|now rewrite chunk_rest].
      apply andb_prop in E as [Eb Eu].
      apply N.eqb_eq in Eb, Eu. subst b u.
      match goal with
      | |- _ = ?rhs =>
          assert (R : rhs = match _decode_uXXXX l1 l2 l3 l4 with
                            | None => None
                            | Some _ => strrest t3
                            end) by reflexivity
      end.
      rewrite R. destruct (_decode_uXXXX l1 l2 l3 l4) as [uni2|]; [|reflexivity].
      destruct (is_low_surrogate uni2).
      * rewrite chunk_rest. eapply IH; [|reflexivity]. cbn. lia.
      * now rewrite chunk_rest, IH2, R.
    + destruct (BACKSLASH esc); [|reflexivity]. rewrite chunk_rest.
      eapply IH; [|reflexivity]. cbn. lia.
  - destruct (N.ltb c 32); [reflexivity|]. rewrite chunk_rest.
    eapply IH; [|reflexivity]. cbn. lia.
Qed.

Lemma scanstring_rest (s v r : str) :
  scanstring s = Some (v, r) -> strrest s = Some r.
Proof. intros H. rewrite <- scanstring_strrest, H. reflexivity. Qed.

Lemma strrest_scanstring (s r : str) :
  strrest s = Some r -> exists v, scanstring s = Some (v, r).
Proof.
  rewrite <- scanstring_strrest.
  destruct (scanstring s) as [[v r0]|]; [|discriminate].
  intros [= <-]. now exists v.
Qed.

Lemma strrest_plain_prefix (p x : str) :
  forallb plain p = true -> strrest (p ++ x) = strrest x.
Proof.
  induction p as [|c p IH]; [reflexivity|]. cbn [forallb app strrest].
  intros H. apply andb_prop in H as [Hc Hp]. unfold plain in Hc.
  apply andb_prop in Hc as [Hc H3]. apply andb_prop in Hc as [H1 H2].
  apply negb_true_iff in H1, H2, H3. rewrite H1, H2, H3. now apply IH.
Qed.

Lemma strrest_length (s r : str) : strrest s = Some r -> length r < length s.
Proof.
  remember (length s) as n eqn:Hn. revert s r Hn.
  induction n as [n IH] using lt_wf_ind. intros s r -> H.
  destruct s as [|c t]; [discriminate|]. cbn [strrest] in H.
  destruct (N.eqb c Ch.dquote); [injection H as <-; cbn; lia|].
  destruct (N.eqb c Ch.backslash).
  - destruct t as [|esc t1]; [discriminate|].
    destruct (N.eqb esc 117).
    + destruct t1 as [|h1 [|h2 [|h3 [|h4 t2]]]]; try discriminate.
      destruct (_decode_uXXXX h1 h2 h3 h4); [|discriminate].
      assert (length r < length t2)
        by (eapply IH; [|reflexivity|exact H]; cbn; lia).
      cbn in *. lia.
    + destruct (BACKSLASH esc); [|discriminate].
      assert (length r < length t1)
        by (eapply IH; [|reflexivity|exact H]; cbn; lia).
      cbn in *. lia.
  - destruct (N.ltb c 32); [discriminate|].
    assert (length r < length t)
      by (eapply IH; [|reflexivity|exact H]; cbn; lia).
    cbn in *. lia.
Qed.

Lemma scanstring_length (s v r : str) :
  scanstring s = Some (v, r) -> length r < length s.
Proof. intros H. eapply strrest_length, scanstring_rest, H. Qed.

Lemma hexval_not_backtick (c : char) (x : N) :
  hexval c = Some x -> c <> Ch.backtick.
Proof. intros H ->. discriminate. Qed.

Lemma decode_not_backtick (a b c d : char) (x : N) :
  _decode_uXXXX a b c d = Some x ->
  a <> Ch.backtick /\ b <> Ch.backtick /\ c <> Ch.backtick /\ d <> Ch.backtick.
Proof.
  unfold _decode_uXXXX.
  destruct (hexval a) eqn:Ea; [|discriminate].
  destruct (hexval b) eqn:Eb; [|discriminate].
  destruct (hexval c) eqn:Ec; [|discriminate].
  destruct (hexval d) eqn:Ed; [|discriminate].
  intros _. repeat split; eapply hexval_not_backtick; eassumption.
Qed.

(** Deleting markers from a JSON string leaves a JSON string. *)
Lemma strrest_deleted (p s s' r : str) :
  marker p = true -> strrest s = Some r -> deleted p s s' ->
  exists r', strrest s' = Some r' /\ deleted p r r'.
Proof.
  intros Hp. remember (length s) as n eqn:Hn. revert s s' r Hn.
  induction n as [n IH] using lt_wf_ind. intros s s' r -> H D.
  destruct s as [|c t]; [discriminate|]. cbn [strrest] in H.
  destruct (N.eqb c Ch.dquote) eqn:E1.
  { apply N.eqb_eq in E1 as ->. injection H as ->.
    apply deleted_cons_inv in D as (t' & -> & D); [|assumption|discriminate].
    exists t'. now split. }
  destruct (N.eqb c Ch.backslash) eqn:E2.
  { apply N.eqb_eq in E2 as ->.
    apply deleted_cons_inv in D as (t' & -> & D); [|assumption|discriminate].
    destruct t as [|esc t1]; [discriminate|].
    destruct (N.eqb esc 117) eqn:E3.
    - apply N.eqb_eq in E3 as ->.
      apply deleted_cons_inv in D as (t1' & -> & D); [|assumption|discriminate].
      destruct t1 as [|h1 [|h2 [|h3 [|h4 t2]]]]; try discriminate.
      destruct (_decode_uXXXX h1 h2 h3 h4) eqn:E4; [|discriminate].
      destruct (decode_not_backtick _ _ _ _ E4) as (B1 & B2 & B3 & B4).
      apply deleted_cons_inv in D as (u1 & -> & D); [|assumption|assumption].
      apply deleted_cons_inv in D as (u2 & -> & D); [|assumption|assumption].
      apply deleted_cons_inv in D as (u3 & -> & D); [|assumption|assumption].
      apply deleted_cons_inv in D as (u4 & -> & D); [|assumption|assumption].
      destruct (IH (length t2)) with (s := t2) (s' := u4) (r := r)
        as (r' & Hr & Dr); trivial; [cbn; lia|].
      exists r'. split; [|assumption]. cbn [strrest]. now rewrite E4.
    - destruct (BACKSLASH esc) eqn:E4; [|discriminate].
      assert (esc <> Ch.backtick) by (intros ->; discriminate).
      apply deleted_cons_inv in D as (t1' & -> & D); [|assumption|assumption].
      destruct (IH (length t1)) with (s := t1) (s' := t1') (r := r)
        as (r' & Hr & Dr); trivial; [cbn; lia|].
      exists r'. split; [|assumption]. cbn [strrest]. now rewrite E3, E4. }
  destruct (N.ltb c 32) eqn:E3; [discriminate|].
  inversion D as [|c0 s0 s0' D0|s0 s0' D0]; subst.
  - destruct (IH (length t)) with (s := t) (s' := s0') (r := r)
      as (r' & Hr & Dr); trivial; [cbn; lia|].
    exists r'. split; [|assumption]. cbn [strrest]. now rewrite E1, E2, E3.
  - destruct (marker_inv _ Hp) as (q & Eq & Hplain).
    assert (Hs : strrest (p ++ s0) = Some r).
    { match goal with E : p ++ s0 = c :: t |- _ => rewrite E end.
      cbn [strrest]. now rewrite E1, E2, E3. }
    rewrite strrest_plain_prefix in Hs by assumption.
    eapply IH; [|reflexivity|exact Hs|exact D0].
    match goal with E : p ++ s0 = c :: t |- _ =>
      rewrite <- E, length_app, Eq; cbn; lia end.
Qed.

Lemma scanstring_deleted (p s s' v r : str) :
  marker p = true -> scanstring s = Some (v, r) -> deleted p s s' ->
  exists v' r', scanstring s' = Some (v', r') /\ deleted p r r'.
Proof.
  intros Hp H D. apply scanstring_rest in H.
  destruct (strrest_deleted Hp H D) as (r' & Hr & Dr).
  destruct (strrest_scanstring _ Hr) as (v' & Hv).
  now exists v', r'.
Qed.

(** ** Numbers *)

Lemma isdigit_not_backtick (c : char) : isdigit c = true -> c <> Ch.backtick.
Proof. intros H ->. discriminate. Qed.

Lemma digits_length (s d r : str) :
  digits s = (d, r) -> length s = length d + length r.
Proof.
  revert d r. induction s as [|c s IH]; intros d r H; cbn in H.
  - now injection H as <- <-.
  - destruct (isdigit c).
    + destruct (digits s) as [d0 r0]. injection H as <- <-.
      cbn. now rewrite (IH _ _ eq_refl).
    + now injection H as <- <-.
Qed.

(** The rest after a run of digits either starts with a backtick or is
    reached in the same way after the deletion. *)
Lemma digits_deleted (p s s' d r : str) :
  marker p = true -> digits s = (d, r) -> deleted p s s' ->
  (exists t, r = Ch.backtick :: t) \/
  (exists r', digits s' = (d, r') /\ deleted p r r').
Proof.
  intros Hp. revert s' d r. induction s as [|c s IH]; intros s' d r H D.
  - cbn in H. injection H as <- <-. apply deleted_nil_inv in D as ->; trivial.
    right. exists []. split; [reflexivity|constructor].
  - cbn in H. destruct (isdigit c) eqn:E.
    + destruct (digits s) as [d0 r0] eqn:E0. injection H as <- <-.
      apply deleted_cons_inv in D as (t' & -> & D);
        [|assumption|now apply isdigit_not_backtick].
      destruct (IH _ _ _ eq_refl D) as [L|(r' & Hr & Dr)]; [now left|].
      right. exists r'. split; [|assumption]. cbn. now rewrite E, Hr.
    + injection H as <- <-.
      destruct (N.eqb c Ch.backtick) eqn:Eb.
      * apply N.eqb_eq in Eb as ->. left. now eexists.
      * apply N.eqb_neq in Eb.
        apply deleted_cons_inv in D as (t' & -> & D); trivial.
        right. exists (c :: t'). split; [|now constructor].
        cbn. now rewrite E.
Qed.

Lemma match_digits_deleted (p pre s s' x r : str) :
  marker p = true -> match_digits pre s = Some (x, r) -> deleted p s s' ->
  (exists t, r = Ch.backtick :: t) \/
  (exists r', match_digits pre s' = Some (x, r') /\ deleted p r r').
Proof.
  intros Hp H D. unfold match_digits in *.
  destruct (digits s) as [d r0] eqn:E.
  destruct (digits_deleted Hp E D) as [(t & ->)|(r' & Hr & Dr)].
  - left. destruct d; [discriminate|]. injection H as <- <-. now eexists.
  - right. rewrite Hr. destruct d; [discriminate|]. injection H as <- <-.
    now exists r'.
Qed.

Lemma match_digits_length (pre s x r : str) :
  match_digits pre s = Some (x, r) -> length r < length s.
Proof.
  unfold match_digits. destruct (digits s) as [d r0] eqn:E.
  apply digits_length in E. destruct d; [discriminate|].
  intros [= <- <-]. cbn in E. lia.
Qed.

Lemma match_natural_deleted (p sign s s' x r : str) :
  marker p = true -> match_natural sign s = Some (x, r) -> deleted p s s' ->
  (exists t, r = Ch.backtick :: t) \/
  (exists r', match_natural sign s' = Some (x, r') /\ deleted p r r').
Proof.
  intros Hp H D. destruct s as [|c t]; [discriminate|]. cbn in H.
  destruct (N.eqb c Ch.zero) eqn:E0.
  - injection H as <- <-. apply N.eqb_eq in E0 as ->.
    apply deleted_cons_inv in D as (t' & -> & D); [|assumption|discriminate].
    right. now exists t'.
  - destruct (isdigit c) eqn:E1; [|discriminate].
    destruct (digits t) as [d r0] eqn:E2. injection H as <- <-.
    apply deleted_cons_inv in D as (t' & -> & D);
      [|assumption|now apply isdigit_not_backtick].
    destruct (digits_deleted Hp E2 D) as [L|(r' & Hr & Dr)]; [now left|].
    right. exists r'. split; [|assumption]. cbn. now rewrite E0, E1, Hr.
Qed.

Lemma match_natural_length (sign s x r : str) :
  match_natural sign s = Some (x, r) -> length r < length s.
Proof.
  destruct s as [|c t]; [discriminate|]. cbn.
  destruct (N.eqb c Ch.zero); [intros [= <- <-]; lia|].
  destruct (isdigit c); [|discriminate].
  destruct (digits t) as [d r0] eqn:E. apply digits_length in E.
  intros [= <- <-]. lia.
Qed.

Lemma match_integer_deleted (p s s' x r : str) :
  marker p = true -> match_integer s = Some (x, r) -> deleted p s s' ->
  (exists t, r = Ch.backtick :: t) \/
  (exists r', match_integer s' = Some (x, r') /\ deleted p r r').
Proof.
  intros Hp H D. destruct s as [|c t]; [discriminate|].
  cbn [match_integer] in H. destruct (N.eqb c Ch.minus) eqn:E.
  - apply N.eqb_eq in E as ->.
    apply deleted_cons_inv in D as (t' & -> & D); [|assumption|discriminate].
    exact (match_natural_deleted _ Hp H D).
  - destruct (N.eqb c Ch.backtick) eqn:Eb.
    + apply N.eqb_eq in Eb as ->. discriminate.
    + apply N.eqb_neq in Eb.
      destruct (match_natural_deleted _ Hp H D) as [L|(r' & Hr & Dr)];
        [now left|].
      right. exists r'. split; [|assumption].
      apply deleted_cons_inv in D as (t' & -> & D); trivial.
      cbn [match_integer]. now rewrite E.
Qed.

Lemma match_integer_length (s x r : str) :
  match_integer s = Some (x, r) -> length r < length s.
Proof.
  destruct s as [|c t]; [discriminate|]. cbn [match_integer].
  destruct (N.eqb c Ch.minus); intros H; apply match_natural_length in H;
    cbn in *; lia.
Qed.

Lemma match_frac_deleted (p s s' x r : str) :
  marker p = true -> match_frac s = Some (x, r) -> deleted p s s' ->
  (exists t, r = Ch.backtick :: t) \/
  (exists r', match_frac s' = Some (x, r') /\ deleted p r r').
Proof.
  intros Hp H D. destruct s as [|c t]; [discriminate|]. cbn [match_frac] in H.
  destruct (N.eqb c Ch.dot) eqn:E; [|discriminate].
  apply N.eqb_eq in E as ->.
  apply deleted_cons_inv in D as (t' & -> & D); [|assumption|discriminate].
  exact (match_digits_deleted _ Hp H D).
Qed.

Lemma match_exp_deleted (p s s' x r : str) :
  marker p = true -> match_exp s = Some (x, r) -> deleted p s s' ->
  (exists t, r = Ch.backtick :: t) \/
  (exists r', match_exp s' = Some (x, r') /\ deleted p r r').
Proof.
  intros Hp H D. destruct s as [|e t]; [discriminate|]. cbn [match_exp] in H.
  destruct (N.eqb e 101 || N.eqb e 69) eqn:E; [|discriminate].
  assert (He : e <> Ch.backtick) by (intros ->; discriminate).
  apply deleted_cons_inv in D as (t' & -> & D); trivial.
  destruct t as [|c t0]; [discriminate|].
  destruct (N.eqb c Ch.plus || N.eqb c Ch.minus) eqn:Es.
  - assert (Hc : c <> Ch.backtick) by (intros ->; discriminate).
    apply deleted_cons_inv in D as (t0' & -> & D); trivial.
    destruct (match_digits_deleted _ Hp H D) as [L|(r' & Hr & Dr)]; [now left|].
    right. exists r'. split; [|assumption]. cbn [match_exp]. now rewrite E, Es.
  - destruct (N.eqb c Ch.backtick) eqn:Eb.
    + apply N.eqb_eq in Eb as ->. discriminate.
    + apply N.eqb_neq in Eb.
      destruct (match_digits_deleted _ Hp H D) as [L|(r' & Hr & Dr)];
        [now left|].
      right. exists r'. split; [|assumption].
      apply deleted_cons_inv in D as (t0' & -> & D); trivial.
      cbn [match_exp]. now rewrite E, Es.
Qed.

Lemma match_frac_length (s x r : str) :
  match_frac s = Some (x, r) -> length r < length s.
Proof.
  destruct s as [|c t]; [discriminate|]. cbn [match_frac].
  destruct (N.eqb c Ch.dot); [|discriminate].
  intros H. apply match_digits_length in H. cbn. lia.
Qed.

Lemma match_exp_length (s x r : str) :
  match_exp s = Some (x, r) -> length r < length s.
Proof.
  destruct s as [|e t]; [discriminate|]. cbn [match_exp].
  destruct (N.eqb e 101 || N.eqb e 69); [|discriminate].
  destruct t as [|c t0]; [discriminate|].
  destruct (N.eqb c Ch.plus || N.eqb c Ch.minus);
    intros H; apply match_digits_length in H; cbn in *; lia.
Qed.

(** After a rest that may follow a value no fraction and no exponent
    starts, before and after the deletion. *)
Lemma follow_ok_deleted (p s s' : str) :
  marker p = true -> follow_ok s = true -> deleted p s s' ->
  match_frac s = None /\ match_exp s = None /\
  match_frac s' = None /\ match_exp s' = None /\ deleted p s s'.
Proof.
  intros Hp H D. destruct s as [|c t].
  - apply deleted_nil_inv in D as ->; trivial. repeat split. constructor.
  - assert (Hc : c <> Ch.backtick) by (intros ->; discriminate).
    pose proof D as D0.
    apply deleted_cons_inv in D as (t' & -> & D); trivial.
    cbn in H. unfold is_ws in H. cbn [match_frac match_exp].
    destruct (N.eqb c Ch.dot) eqn:E1.
    { apply N.eqb_eq in E1 as ->. discriminate. }
    destruct (N.eqb c 101 || N.eqb c 69) eqn:E2.
    { apply orb_prop in E2 as [E2|E2]; apply N.eqb_eq in E2; subst c; discriminate. }
    now repeat split.
Qed.

Lemma follow_ok_not_backtick (t : str) : follow_ok (Ch.backtick :: t) = false.
Proof. reflexivity. Qed.

Lemma match_exp_head (s x r : str) :
  match_exp s = Some (x, r) -> match_frac s = None.
Proof.
  destruct s as [|e t]; [discriminate|]. cbn [match_exp match_frac].
  destruct (N.eqb e 101 || N.eqb e 69) eqn:E; [|discriminate]. intros _.
  destruct (N.eqb e Ch.dot) eqn:E1; [|reflexivity].
  apply N.eqb_eq in E1 as ->. discriminate.
Qed.

(** A number followed by something that may follow a value is matched in
    the same way after the deletion. *)
Lemma match_number_deleted (p s s' i r : str) (f e : option str) :
  marker p = true -> match_number s = Some (i, f, e, r) ->
  follow_ok r = true -> deleted p s s' ->
  exists r', match_number s' = Some (i, f, e, r') /\ deleted p r r'.
Proof.
  intros Hp H F D. unfold match_number in *.
  destruct (match_integer s) as [[i0 s1]|] eqn:Ei; [|discriminate].
  destruct (match_integer_deleted Hp Ei D) as [(t & ->)|(s1' & Hi' & D1)].
  { cbn in H. injection H as <- <- <- <-. discriminate. }
  rewrite Hi'.
  destruct (match_frac s1) as [[fr s2]|] eqn:Ef.
  - destruct (match_frac_deleted Hp Ef D1) as [(t & ->)|(s2' & Hf' & D2)].
    { cbn in H. injection H as <- <- <- <-. discriminate. }
    rewrite Hf'.
    destruct (match_exp s2) as [[ex s3]|] eqn:Ee.
    + injection H as <- <- <- <-.
      destruct (match_exp_deleted Hp Ee D2) as [(t & ->)|(s3' & He' & D3)];
        [discriminate|].
      rewrite He'. now exists s3'.
    + injection H as <- <- <- <-.
      destruct (follow_ok_deleted Hp F D2) as (_ & _ & _ & He' & _).
      rewrite He'. now exists s2'.
  - destruct (match_exp s1) as [[ex s3]|] eqn:Ee.
    + injection H as <- <- <- <-.
      destruct (match_exp_deleted Hp Ee D1) as [(t & ->)|(s3' & He' & D3)];
        [discriminate|].
      rewrite (match_exp_head _ He'), He'. now exists s3'.
    + injection H as <- <- <- <-.
      destruct (follow_ok_deleted Hp F D1) as (_ & _ & Hf' & He' & _).
      rewrite Hf', He'. now exists s1'.
Qed.

Lemma match_number_length (s i r : str) (f e : option str) :
  match_number s = Some (i, f, e, r) -> length r < length s.
Proof.
  unfold match_number.
  destruct (match_integer s) as [[i0 s1]|] eqn:Ei; [|discriminate].
  apply match_integer_length in Ei.
  destruct (match_frac s1) as [[fr s2]|] eqn:Ef.
  - apply match_frac_length in Ef.
    destruct (match_exp s2) as [[ex s3]|] eqn:Ee.
    + apply match_exp_length in Ee. intros [= <- <- <- <-]. lia.
    + intros [= <- <- <- <-]. lia.
  - destruct (match_exp s1) as [[ex s3]|] eqn:Ee.
    + apply match_exp_length in Ee. intros [= <- <- <- <-]. lia.
    + intros [= <- <- <- <-]. lia.
Qed.

(** ** Values: the rest is shorter than the input *)

Section ContainersLength.
Variable scan_value : str -> scan.
Hypothesis scan_shorter :
  forall s v r, scan_value s = Scanned v r -> length r < length s.

Lemma object_loop_length (fuel : nat) :
  forall pairs s v r,
    object_loop scan_value fuel pairs s = Scanned v r -> length r < length s.
Proof.
  induction fuel as [|fuel IH]; intros pairs s v r H; [discriminate|].
  cbn [object_loop] in H.
  destruct (scanstring s) as [[key s1]|] eqn:E1; [|discriminate].
  apply scanstring_length in E1.
  pose proof (skip_ws_length s1) as L1.
  destruct (skip_ws s1) as [|c1 s2]; [discriminate|].
  destruct (N.eqb c1 Ch.colon); [|discriminate].
  pose proof (skip_ws_length s2) as L2.
  destruct (scan_value (skip_ws s2)) as [value s3| |] eqn:E2; try discriminate.
  apply scan_shorter in E2.
  pose proof (skip_ws_length s3) as L3.
  destruct (skip_ws s3) as [|nextchar s4]; [discriminate|].
  destruct (N.eqb nextchar Ch.rbrace).
  { injection H as <- <-. cbn in *. lia. }
  destruct (N.eqb nextchar Ch.comma); [|discriminate].
  pose proof (skip_ws_length s4) as L4.
  destruct (skip_ws s4) as [|q s5]; [discriminate|].
  destruct (N.eqb q Ch.dquote); [|discriminate].
  apply IH in H. cbn in *. lia.
Qed.

Lemma JSONObject_length (fuel : nat) (s : str) (v : pyobj) (r : str) :
  JSONObject scan_value fuel s = Scanned v r -> length r < length s.
Proof.
  unfold JSONObject. pose proof (skip_ws_length s) as L.
  destruct (skip_ws s) as [|nextchar t]; [discriminate|].
  destruct (N.eqb nextchar Ch.rbrace).
  { intros [= <- <-]. cbn in *. lia. }
  destruct (N.eqb nextchar Ch.dquote); [|discriminate].
  intros H. apply object_loop_length in H. cbn in *. lia.
Qed.

Lemma array_loop_length (fuel : nat) :
  forall values s v r,
    array_loop scan_value fuel values s = Scanned v r -> length r < length s.
Proof.
  induction fuel as [|fuel IH]; intros values s v r H; [discriminate|].
  cbn [array_loop] in H.
  destruct (scan_value s) as [value s1| |] eqn:E1; try discriminate.
  apply scan_shorter in E1.
  pose proof (skip_ws_length s1) as L1.
  destruct (skip_ws s1) as [|nextchar s2]; [discriminate|].
  destruct (N.eqb nextchar Ch.rbracket).
  { injection H as <- <-. cbn in *. lia. }
  destruct (N.eqb nextchar Ch.comma); [|discriminate].
  apply IH in H. pose proof (skip_ws_length s2). cbn in *. lia.
Qed.

Lemma JSONArray_length (fuel : nat) (s : str) (v : pyobj) (r : str) :
  JSONArray scan_value fuel s = Scanned v r -> length r < length s.
Proof.
  unfold JSONArray. pose proof (skip_ws_length s) as L.
  destruct (skip_ws s) as [|nextchar t]; [discriminate|].
  destruct (N.eqb nextchar Ch.rbracket).
  { intros [= <- <-]. cbn in *. lia. }
  intros H. apply array_loop_length in H. cbn in *. lia.
Qed.
End ContainersLength.

Lemma startswith_skipn_length (s w : str) :
  startswith s w = true -> w <> [] -> length (skipn (length w) s) < length s.
Proof.
  intros H Hw. rewrite (startswith_split _ _ H) at 2. rewrite length_app.
  destruct w; [congruence|cbn; lia].
Qed.

Lemma scan_once_length (fuel : nat) :
  forall s v r, scan_once fuel s = Scanned v r -> length r < length s.
Proof.
  induction fuel as [|fuel IH]; intros s v r H; [discriminate|].
  cbn [scan_once] in H. destruct s as [|nextchar t]; [discriminate|].
  destruct (N.eqb nextchar Ch.dquote).
  { destruct (scanstring t) as [[x rest]|] eqn:E; [|discriminate].
    injection H as <- <-. apply scanstring_length in E. cbn. lia. }
  destruct (N.eqb nextchar Ch.lbrace).
  { apply JSONObject_length in H; [cbn; lia|exact IH]. }
  destruct (N.eqb nextchar Ch.lbracket).
  { apply JSONArray_length in H; [cbn; lia|exact IH]. }
  destruct (startswith (nextchar :: t) (lit "null")) eqn:E1.
  { injection H as <- <-.
    exact (@startswith_skipn_length _ (lit "null") E1 ltac:(discriminate)). }
  destruct (startswith (nextchar :: t) (lit "true")) eqn:E2.
  { injection H as <- <-.
    exact (@startswith_skipn_length _ (lit "true") E2 ltac:(discriminate)). }
  destruct (startswith (nextchar :: t) (lit "false")) eqn:E3.
  { injection H as <- <-.
    exact (@startswith_skipn_length _ (lit "false") E3 ltac:(discriminate)). }
  destruct (match_number (nextchar :: t)) as [[[[i f] e] rest]|] eqn:E4.
  { apply match_number_length in E4.
    destruct f, e; injection H as <- <-; exact E4. }
  destruct (startswith (nextchar :: t) (lit "NaN")) eqn:E5.
  { injection H as <- <-.
    exact (@startswith_skipn_length _ (lit "NaN") E5 ltac:(discriminate)). }
  destruct (startswith (nextchar :: t) (lit "Infinity")) eqn:E6.
  { injection H as <- <-.
    exact (@startswith_skipn_length _ (lit "Infinity") E6 ltac:(discriminate)). }
  destruct (startswith (nextchar :: t) (lit "-Infinity")) eqn:E7; [|discriminate].
  injection H as <- <-.
  exact (@startswith_skipn_length _ (lit "-Infinity") E7 ltac:(discriminate)).
Qed.

(** ** The recursion budget of [json_loads] is never used up *)

Section ContainersFuel.
Variable scan_value : str -> scan.
Variable bound : nat.
Hypothesis scan_shorter :
  forall s v r, scan_value s = Scanned v r -> length r < length s.
Hypothesis scan_enough :
  forall s, length s < bound -> scan_value s <> Exhausted.

Lemma object_loop_enough (fuel : nat) :
  forall pairs s,
    length s < fuel -> length s < bound ->
    object_loop scan_value fuel pairs s <> Exhausted.
Proof.
  induction fuel as [|fuel IH]; intros pairs s Lf Lb; [lia|].
  cbn [object_loop].
  destruct (scanstring s) as [[key s1]|] eqn:E1; [|discriminate].
  apply scanstring_length in E1.
  pose proof (skip_ws_length s1) as L1.
  destruct (skip_ws s1) as [|c1 s2]; [discriminate|]. cbn [length] in L1.
  destruct (N.eqb c1 Ch.colon); [|discriminate].
  pose proof (skip_ws_length s2) as L2.
  destruct (scan_value (skip_ws s2)) as [value s3| |] eqn:E2; [|discriminate|].
  - apply scan_shorter in E2.
    pose proof (skip_ws_length s3) as L3.
    destruct (skip_ws s3) as [|nextchar s4]; [discriminate|]. cbn [length] in L3.
    destruct (N.eqb nextchar Ch.rbrace); [discriminate|].
    destruct (N.eqb nextchar Ch.comma); [|discriminate].
    pose proof (skip_ws_length s4) as L4.
    destruct (skip_ws s4) as [|q s5]; [discriminate|]. cbn [length] in L4.
    destruct (N.eqb q Ch.dquote); [|discriminate].
    apply IH; lia.
  - exfalso. apply (scan_enough (s := skip_ws s2)); [lia|assumption].
Qed.

Lemma JSONObject_enough (fuel : nat) (s : str) :
  length s < fuel -> length s < bound ->
  JSONObject scan_value fuel s <> Exhausted.
Proof.
  intros Lf Lb. unfold JSONObject. pose proof (skip_ws_length s) as L.
  destruct (skip_ws s) as [|nextchar t]; [discriminate|]. cbn [length] in L.
  destruct (N.eqb nextchar Ch.rbrace); [discriminate|].
  destruct (N.eqb nextchar Ch.dquote); [|discriminate].
  apply object_loop_enough; lia.
Qed.

Lemma array_loop_enough (fuel : nat) :
  forall values s,
    length s < fuel -> length s < bound ->
    array_loop scan_value fuel values s <> Exhausted.
Proof.
  induction fuel as [|fuel IH]; intros values s Lf Lb; [lia|].
  cbn [array_loop].
  destruct (scan_value s) as [value s1| |] eqn:E1; [|discriminate|].
  - apply scan_shorter in E1.
    pose proof (skip_ws_length s1) as L1.
    destruct (skip_ws s1) as [|nextchar s2]; [discriminate|]. cbn [length] in L1.
    destruct (N.eqb nextchar Ch.rbracket); [discriminate|].
    destruct (N.eqb nextchar Ch.comma); [|discriminate].
    pose proof (skip_ws_length s2) as L2.
    apply IH; lia.
  - exfalso. now apply (scan_enough (s := s)).
Qed.

Lemma JSONArray_enough (fuel : nat) (s : str) :
  length s < fuel -> length s < bound ->
  JSONArray scan_value fuel s <> Exhausted.
Proof.
  intros Lf Lb. unfold JSONArray. pose proof (skip_ws_length s) as L.
  destruct (skip_ws s) as [|nextchar t] eqn:E; [discriminate|].
  destruct (N.eqb nextchar Ch.rbracket); [discriminate|].
  apply array_loop_enough; lia.
Qed.
End ContainersFuel.

Lemma scan_once_enough (fuel : nat) :
  forall s, length s < fuel -> scan_once fuel s <> Exhausted.
Proof.
  induction fuel as [|fuel IH]; intros s L; [lia|].
  cbn [scan_once]. destruct s as [|nextchar t]; [discriminate|].
  cbn [length] in L.
  destruct (N.eqb nextchar Ch.dquote).
  { destruct (scanstring t) as [[x rest]|]; discriminate. }
  destruct (N.eqb nextchar Ch.lbrace).
  { apply JSONObject_enough with (bound := fuel);
      [exact (scan_once_length fuel)|exact IH|lia|lia]. }
  destruct (N.eqb nextchar Ch.lbracket).
  { apply JSONArray_enough with (bound := fuel);
      [exact (scan_once_length fuel)|exact IH|lia|lia]. }
  destruct (startswith _ (lit "null")); [discriminate|].
  destruct (startswith _ (lit "true")); [discriminate|].
  destruct (startswith _ (lit "false")); [discriminate|].
  destruct (match_number _) as [[[[i f] e] rest]|].
  { destruct f, e; discriminate. }
  destruct (startswith _ (lit "NaN")); [discriminate|].
  destruct (startswith _ (lit "Infinity")); [discriminate|].
  destruct (startswith _ (lit "-Infinity")); discriminate.
Qed.

(** [json_loads] gives the scanner enough budget: [None] always stands
    for a [JSONDecodeError]. *)
Lemma json_loads_fuel (s : str) :
  scan_once (S (length s)) (skip_ws s) <> Exhausted.
Proof.
  apply scan_once_enough. pose proof (skip_ws_length s). lia.
Qed.

(** ** Values: deleting markers preserves decoding *)

Lemma skipn_length_app (w r : str) : skipn (length w) (w ++ r) = r.
Proof. induction w; [reflexivity|assumption]. Qed.

Lemma startswith_ex (s w : str) :
  startswith s w = true -> exists r, s = w ++ r.
Proof. intros H. eexists. exact (startswith_split _ _ H). Qed.

Lemma startswith_head_neq (c x : char) (t w : str) :
  c <> x -> startswith (c :: t) (x :: w) = false.
Proof. intros H. cbn. apply N.eqb_neq in H. now rewrite H. Qed.

Lemma match_number_head (c : char) (t : str)
    (x : str * option str * option str * str) :
  match_number (c :: t) = Some x -> c = Ch.minus \/ isdigit c = true.
Proof.
  unfold match_number, match_integer.
  destruct (N.eqb c Ch.minus) eqn:E; [apply N.eqb_eq in E; now left|].
  cbn [match_natural]. destruct (N.eqb c Ch.zero) eqn:E0.
  - apply N.eqb_eq in E0 as ->. now right.
  - destruct (isdigit c); [now right|discriminate].
Qed.

Lemma number_head_not_letter (c x : char) :
  c = Ch.minus \/ isdigit c = true -> (58 <= x)%N -> c <> x.
Proof.
  intros [->|H] Hx E; subst.
  - unfold Ch.minus in Hx. lia.
  - unfold isdigit in H. apply andb_prop in H as [_ H].
    apply N.leb_le in H. lia.
Qed.

Lemma scan_once_backtick (fuel : nat) (t : str) (v : pyobj) (r : str) :
  scan_once fuel (Ch.backtick :: t) <> Scanned v r.
Proof. destruct fuel; [discriminate|]. vm_compute. discriminate. Qed.

Section ContainersDeleted.
Variable p : str.
Hypothesis Hp : marker p = true.
Variables scan_value scan_value' : str -> scan.
Variable bound : nat.
Hypothesis scan'_shorter :
  forall s v r, scan_value' s = Scanned v r -> length r < length s.
Hypothesis scan_backtick :
  forall t v r, scan_value (Ch.backtick :: t) <> Scanned v r.
Hypothesis scan_deleted :
  forall s s' v r,
    scan_value s = Scanned v r -> follow_ok r = true -> deleted p s s' ->
    length s' < bound ->
    exists v' r', scan_value' s' = Scanned v' r' /\ deleted p r r'.

Lemma object_loop_deleted (fuel : nat) :
  forall pairs s v r,
    object_loop scan_value fuel pairs s = Scanned v r ->
    forall pairs' s' fuel',
      deleted p s s' -> length s' < bound -> length s' < fuel' ->
      exists v' r', object_loop scan_value' fuel' pairs' s' = Scanned v' r' /\
                    deleted p r r'.
Proof.
  induction fuel as [|fuel IH]; intros pairs s v r H pairs' s' fuel' D Lb Lf;
    [discriminate|].
  destruct fuel' as [|fuel']; [lia|].
  cbn [object_loop] in H |- *.
  destruct (scanstring s) as [[key s1]|] eqn:E1; [|discriminate].
  destruct (scanstring_deleted Hp E1 D) as (key' & s1' & E1' & D1).
  rewrite E1'. pose proof (scanstring_length _ E1') as L1.
  destruct (skip_ws s1) as [|c1 s2] eqn:E2; [discriminate|].
  destruct (N.eqb c1 Ch.colon) eqn:Ec; [|discriminate].
  apply N.eqb_eq in Ec. subst c1.
  destruct (skip_ws_cons_deleted Hp D1 E2) as (s2' & E2' & D2); [discriminate|].
  rewrite E2'. change (N.eqb Ch.colon Ch.colon) with true. cbv iota.
  pose proof (skip_ws_length s1') as L2. rewrite E2' in L2. cbn [length] in L2.
  destruct (scan_value (skip_ws s2)) as [value s3| |] eqn:E3; try discriminate.
  destruct (skip_ws s3) as [|nextchar s4] eqn:E4; [discriminate|].
  assert (F3 : follow_ok s3 = true /\ nextchar <> Ch.backtick).
  { destruct (N.eqb nextchar Ch.rbrace) eqn:Er.
    - apply N.eqb_eq in Er. subst nextchar.
      split; [eapply follow_ok_skip_ws; eauto|discriminate].
    - destruct (N.eqb nextchar Ch.comma) eqn:Ek; [|discriminate].
      apply N.eqb_eq in Ek. subst nextchar.
      split; [eapply follow_ok_skip_ws; eauto|discriminate]. }
  destruct F3 as [F3 Hn].
  destruct (skip_ws_deleted Hp D2) as [(t & Et)|D2'].
  { rewrite Et in E3. now apply scan_backtick in E3. }
  pose proof (skip_ws_length s2') as L3.
  destruct (scan_deleted E3 F3 D2') as (value' & s3' & E3' & D3); [lia|].
  rewrite E3'. pose proof (@scan'_shorter _ _ _ E3') as L4.
  destruct (skip_ws_cons_deleted Hp D3 E4) as (s4' & E4' & D4); [assumption|].
  rewrite E4'.
  pose proof (skip_ws_length s3') as L5. rewrite E4' in L5. cbn [length] in L5.
  destruct (N.eqb nextchar Ch.rbrace).
  { injection H as <- <-. eexists _, _. split; [reflexivity|assumption]. }
  destruct (N.eqb nextchar Ch.comma); [|discriminate].
  destruct (skip_ws s4) as [|q s5] eqn:E5; [discriminate|].
  destruct (N.eqb q Ch.dquote) eqn:Eq; [|discriminate].
  apply N.eqb_eq in Eq. subst q.
  destruct (skip_ws_cons_deleted Hp D4 E5) as (s5' & E5' & D5); [discriminate|].
  rewrite E5'. change (N.eqb Ch.dquote Ch.dquote) with true. cbv iota.
  pose proof (skip_ws_length s4') as L6. rewrite E5' in L6. cbn [length] in L6.
  eapply IH; [exact H|exact D5|lia|lia].
Qed.

Lemma JSONObject_deleted (fuel : nat) (s : str) (v : pyobj) (r : str) :
  JSONObject scan_value fuel s = Scanned v r ->
  forall s' fuel',
    deleted p s s' -> length s' < bound -> length s' < fuel' ->
    exists v' r', JSONObject scan_value' fuel' s' = Scanned v' r' /\ deleted p r r'.
Proof.
  unfold JSONObject. intros H s' fuel' D Lb Lf.
  destruct (skip_ws s) as [|nextchar t] eqn:E; [discriminate|].
  assert (Hn : nextchar <> Ch.backtick).
  { intros ->. discriminate. }
  destruct (skip_ws_cons_deleted Hp D E) as (t' & E' & D'); [assumption|].
  rewrite E'. pose proof (skip_ws_length s') as L. rewrite E' in L.
  cbn [length] in L.
  destruct (N.eqb nextchar Ch.rbrace).
  { injection H as <- <-. eexists _, _. split; [reflexivity|assumption]. }
  destruct (N.eqb nextchar Ch.dquote); [|discriminate].
  eapply object_loop_deleted; [exact H|exact D'|lia|lia].
Qed.

Lemma array_loop_deleted (fuel : nat) :
  forall values s v r,
    array_loop scan_value fuel values s = Scanned v r ->
    forall values' s' fuel',
      deleted p s s' -> length s' < bound -> length s' < fuel' ->
      exists v' r', array_loop scan_value' fuel' values' s' = Scanned v' r' /\
                    deleted p r r'.
Proof.
  induction fuel as [|fuel IH]; intros values s v r H values' s' fuel' D Lb Lf;
    [discriminate|].
  destruct fuel' as [|fuel']; [lia|].
  cbn [array_loop] in H |- *.
  destruct (scan_value s) as [value s1| |] eqn:E1; try discriminate.
  destruct (skip_ws s1) as [|nextchar s2] eqn:E2; [discriminate|].
  assert (F1 : follow_ok s1 = true /\ nextchar <> Ch.backtick).
  { destruct (N.eqb nextchar Ch.rbracket) eqn:Er.
    - apply N.eqb_eq in Er. subst nextchar.
      split; [eapply follow_ok_skip_ws; eauto|discriminate].
    - destruct (N.eqb nextchar Ch.comma) eqn:Ek; [|discriminate].
      apply N.eqb_eq in Ek. subst nextchar.
      split; [eapply follow_ok_skip_ws; eauto|discriminate]. }
  destruct F1 as [F1 Hn].
  destruct (scan_deleted E1 F1 D Lb) as (value' & s1' & E1' & D1).
  rewrite E1'. pose proof (@scan'_shorter _ _ _ E1') as L1.
  destruct (skip_ws_cons_deleted Hp D1 E2) as (s2' & E2' & D2); [assumption|].
  rewrite E2'.
  pose proof (skip_ws_length s1') as L2. rewrite E2' in L2. cbn [length] in L2.
  destruct (N.eqb nextchar Ch.rbracket).
  { injection H as <- <-. eexists _, _. split; [reflexivity|assumption]. }
  destruct (N.eqb nextchar Ch.comma); [|discriminate].
  pose proof (skip_ws_length s2') as L3.
  destruct (skip_ws_deleted Hp D2) as [(t & Et)|D2'].
  { rewrite Et in H. destruct fuel; [discriminate|]. cbn [array_loop] in H.
    destruct (scan_value (Ch.backtick :: t)) eqn:Eb; try discriminate.
    now apply scan_backtick in Eb. }
  eapply IH; [exact H|exact D2'|lia|lia].
Qed.

Lemma JSONArray_deleted (fuel : nat) (s : str) (v : pyobj) (r : str) :
  JSONArray scan_value fuel s = Scanned v r ->
  forall s' fuel',
    deleted p s s' -> length s' < bound -> length s' < fuel' ->
    exists v' r', JSONArray scan_value' fuel' s' = Scanned v' r' /\ deleted p r r'.
Proof.
  unfold JSONArray. intros H s' fuel' D Lb Lf.
  destruct (skip_ws s) as [|nextchar t] eqn:E; [discriminate|].
  assert (Hn : nextchar <> Ch.backtick).
  { intros ->. change (N.eqb Ch.backtick Ch.rbracket) with false in H.
    cbv iota in H. destruct fuel; [discriminate|]. cbn [array_loop] in H.
    destruct (scan_value (Ch.backtick :: t)) eqn:Eb; try discriminate.
    now apply scan_backtick in Eb. }
  destruct (skip_ws_cons_deleted Hp D E) as (t' & E' & D'); [assumption|].
  rewrite E'. pose proof (skip_ws_length s') as L. rewrite E' in L.
  destruct (N.eqb nextchar Ch.rbracket).
  { injection H as <- <-. eexists _, _. split; [reflexivity|assumption]. }
  eapply array_loop_deleted; [exact H|now constructor|lia|lia].
Qed.
End ContainersDeleted.

(** A literal at the head of the input stays there after the deletion. *)
Lemma literal_deleted (p w s s' : str) :
  marker p = true -> ~ In Ch.backtick w ->
  startswith s w = true -> deleted p s s' ->
  exists r r', s = w ++ r /\ s' = w ++ r' /\ deleted p r r'.
Proof.
  intros Hp Hw E D. destruct (startswith_ex _ _ E) as (r & ->).
  destruct (deleted_app_inv _ _ Hp Hw D) as (r' & -> & Dr).
  now exists r, r'.
Qed.

Ltac literal_case Hp E D H w :=
  let r := fresh "r" in
  let r' := fresh "r'" in
  let Es := fresh "Es" in
  let Es' := fresh "Es'" in
  let Dr := fresh "Dr" in
  destruct (@literal_deleted _ w _ _ Hp
              ltac:(vm_compute; intuition discriminate) E D)
    as (r & r' & Es & Es' & Dr);
  rewrite Es in H; rewrite Es';
  vm_compute in H; injection H as <- <-;
  eexists _, r'; split; [vm_compute; reflexivity|exact Dr].

Lemma scan_once_deleted (p : str) (Hp : marker p = true) (fuel : nat) :
  forall s s' v r fuel',
    scan_once fuel s = Scanned v r -> follow_ok r = true ->
    deleted p s s' -> length s' < fuel' ->
    exists v' r', scan_once fuel' s' = Scanned v' r' /\ deleted p r r'.
Proof.
  induction fuel as [|fuel IH]; intros s s' v r fuel' H F D L; [discriminate|].
  destruct fuel' as [|fuel']; [lia|].
  destruct s as [|nextchar t]; [discriminate|].
  destruct (N.eqb nextchar Ch.backtick) eqn:Eb.
  { apply N.eqb_eq in Eb as ->. now apply scan_once_backtick in H. }
  apply N.eqb_neq in Eb. pose proof D as D0.
  apply deleted_cons_inv in D as (t' & -> & D); trivial.
  cbn [length] in L.
  destruct (startswith (nextchar :: t) (lit "null")) eqn:E1.
  { literal_case Hp E1 D0 H (lit "null"). }
  destruct (startswith (nextchar :: t) (lit "true")) eqn:E2.
  { literal_case Hp E2 D0 H (lit "true"). }
  destruct (startswith (nextchar :: t) (lit "false")) eqn:E3.
  { literal_case Hp E3 D0 H (lit "false"). }
  cbn [scan_once] in H |- *. rewrite E1, E2, E3 in H.
  destruct (N.eqb nextchar Ch.dquote) eqn:Eq.
  { destruct (scanstring t) as [[x rest]|] eqn:E; [|discriminate].
    injection H as <- <-.
    destruct (scanstring_deleted Hp E D) as (x' & rest' & E' & Dr).
    rewrite E'. now eexists _, _. }
  destruct (N.eqb nextchar Ch.lbrace) eqn:Eo.
  { eapply (@JSONObject_deleted p Hp (scan_once fuel) (scan_once fuel') fuel');
      [exact (scan_once_length fuel')
      |exact (scan_once_backtick fuel)
      |intros; eapply IH; eassumption
      |exact H|exact D|lia|lia]. }
  destruct (N.eqb nextchar Ch.lbracket) eqn:Ea.
  { eapply (@JSONArray_deleted p Hp (scan_once fuel) (scan_once fuel') fuel');
      [exact (scan_once_length fuel')
      |exact (scan_once_backtick fuel)
      |intros; eapply IH; eassumption
      |exact H|exact D|lia|lia]. }
  destruct (match_number (nextchar :: t)) as [[[[i f] e] rest]|] eqn:E4.
  { pose proof (match_number_head _ _ E4) as Hh.
    assert (N1 : startswith (nextchar :: t') (lit "null") = false)
      by exact (@startswith_head_neq nextchar 110%N t' (lit "ull")
                  (@number_head_not_letter nextchar 110%N Hh ltac:(lia))).
    assert (N2 : startswith (nextchar :: t') (lit "true") = false)
      by exact (@startswith_head_neq nextchar 116%N t' (lit "rue")
                  (@number_head_not_letter nextchar 116%N Hh ltac:(lia))).
    assert (N3 : startswith (nextchar :: t') (lit "false") = false)
      by exact (@startswith_head_neq nextchar 102%N t' (lit "alse")
                  (@number_head_not_letter nextchar 102%N Hh ltac:(lia))).
    rewrite N1, N2, N3.
    assert (Fr : follow_ok rest = true) by (destruct f, e; now injection H as <- <-).
    destruct (match_number_deleted Hp E4 Fr D0) as (rest' & E4' & Dr).
    rewrite E4'. destruct f, e; injection H as <- <-; now eexists _, _. }
  destruct (startswith (nextchar :: t) (lit "NaN")) eqn:E5.
  { literal_case Hp E5 D0 H (lit "NaN"). }
  destruct (startswith (nextchar :: t) (lit "Infinity")) eqn:E6.
  { literal_case Hp E6 D0 H (lit "Infinity"). }
  destruct (startswith (nextchar :: t) (lit "-Infinity")) eqn:E7; [|discriminate].
  literal_case Hp E7 D0 H (lit "-Infinity").
Qed.

(** A text that decodes still decodes after markers are deleted from it. *)
Lemma json_loads_deleted (p s s' : str) (v : pyobj) :
  marker p = true -> json_loads s = Some v -> deleted p s s' ->
  exists v', json_loads s' = Some v'.
Proof.
  intros Hp H D. unfold json_loads in *.
  destruct (startswith s [65279%N]) eqn:Eb; [discriminate|].
  destruct (scan_once (S (length s)) (skip_ws s)) as [obj rest| |] eqn:E;
    try discriminate.
  destruct (skip_ws rest) eqn:Er; [|discriminate].
  assert (Eb' : startswith s' [65279%N] = false).
  { destruct s as [|c t].
    - apply deleted_nil_inv in D as ->; trivial.
    - destruct (N.eqb c Ch.backtick) eqn:Ec.
      + apply N.eqb_eq in Ec as ->. now apply scan_once_backtick in E.
      + apply N.eqb_neq in Ec.
        apply deleted_cons_inv in D as (t' & -> & D); trivial. }
  rewrite Eb'.
  destruct (skip_ws_deleted Hp D) as [(t & Et)|Dw].
  { rewrite Et in E. now apply scan_once_backtick in E. }
  destruct (@scan_once_deleted p Hp _ _ _ _ _ (S (length s')) E
              (follow_ok_skip_ws_nil _ Er) Dw) as (v' & rest' & E' & Dr).
  { pose proof (skip_ws_length s'). lia. }
  rewrite E'. rewrite (skip_ws_nil_deleted Hp Dr Er). now exists v'.
Qed.

(** ** A text that starts with an opening brace decodes to a dict *)

Lemma object_loop_dict (scan_value : str -> scan) (fuel : nat) :
  forall pairs s v r,
    object_loop scan_value fuel pairs s = Scanned v r -> is_dict v = true.
Proof.
  induction fuel as [|fuel IH]; intros pairs s v r H; [discriminate|].
  cbn [object_loop] in H.
  destruct (scanstring s) as [[key s1]|]; [|discriminate].
  destruct (skip_ws s1) as [|c1 s2]; [discriminate|].
  destruct (N.eqb c1 Ch.colon); [|discriminate].
  destruct (scan_value (skip_ws s2)) as [value s3| |]; try discriminate.
  destruct (skip_ws s3) as [|nextchar s4]; [discriminate|].
  destruct (N.eqb nextchar Ch.rbrace); [now injection H as <- <-|].
  destruct (N.eqb nextchar Ch.comma); [|discriminate].
  destruct (skip_ws s4) as [|q s5]; [discriminate|].
  destruct (N.eqb q Ch.dquote); [|discriminate].
  eapply IH, H.
Qed.

Lemma json_loads_brace_dict (t : str) (v : pyobj) :
  json_loads (Ch.lbrace :: t) = Some v -> is_dict v = true.
Proof.
  unfold json_loads. change (startswith (Ch.lbrace :: t) [65279%N]) with false.
  cbv iota. change (skip_ws (Ch.lbrace :: t)) with (Ch.lbrace :: t).
  cbn [scan_once length].
  change (N.eqb Ch.lbrace Ch.dquote) with false.
  change (N.eqb Ch.lbrace Ch.lbrace) with true. cbv iota.
  unfold JSONObject.
  destruct (skip_ws t) as [|nextchar t0]; [discriminate|].
  destruct (N.eqb nextchar Ch.rbrace).
  { destruct (skip_ws t0); [|discriminate]. now intros [= <-]. }
  destruct (N.eqb nextchar Ch.dquote); [|discriminate].
  destruct (object_loop _ _ _ _) as [obj rest| |] eqn:E; try discriminate.
  destruct (skip_ws rest); [|discriminate]. intros [= <-].
  eapply object_loop_dict, E.
Qed.


(** ** The Locator between brace-free surroundings *)

Lemma fence_json_marker : marker fence_json = true.
Proof. reflexivity. Qed.

Lemma fence_marker : marker fence = true.
Proof. reflexivity. Qed.

Lemma unfence_eq (s : str) :
  unfence s = replace_from fence [] 0 (replace_from fence_json [] 0 s).
Proof. reflexivity. Qed.

Lemma unfence_In (s : str) (x : char) : In x (unfence s) -> In x s.
Proof.
  rewrite unfence_eq. intros H.
  eapply replace_from_In, replace_from_In, H.
Qed.

Lemma unfence_separated (a b : str) (c : char) :
  ~ In c fence_json ->
  unfence (a ++ c :: b) = unfence a ++ c :: unfence b.
Proof.
  intros Hc. rewrite !unfence_eq.
  rewrite (@replace_from_separated fence_json [] a b c);
    [|discriminate|assumption].
  rewrite (@replace_from_separated fence []); [reflexivity|discriminate|].
  intros H. apply Hc. vm_compute in H |- *. tauto.
Qed.

Lemma lbrace_not_in_fence : ~ In Ch.lbrace fence_json.
Proof. vm_compute. intuition discriminate. Qed.

Lemma rbrace_not_in_fence : ~ In Ch.rbrace fence_json.
Proof. vm_compute. intuition discriminate. Qed.

Lemma unfence_object (mid : str) :
  unfence (Ch.lbrace :: mid ++ [Ch.rbrace])
  = Ch.lbrace :: unfence mid ++ [Ch.rbrace].
Proof.
  pose proof (@unfence_separated [] (mid ++ [Ch.rbrace]) Ch.lbrace
                lbrace_not_in_fence) as H.
  cbn [app] in H. rewrite H.
  rewrite (@unfence_separated mid [] Ch.rbrace rbrace_not_in_fence).
  reflexivity.
Qed.

Lemma strip_between (a b mid : str) :
  strip (a ++ Ch.lbrace :: mid ++ Ch.rbrace :: b)
  = lstrip a ++ Ch.lbrace :: mid ++ Ch.rbrace :: rstrip b.
Proof.
  unfold strip. rewrite lstrip_app_nonspace by reflexivity.
  change (lstrip a ++ Ch.lbrace :: mid ++ Ch.rbrace :: b)
    with (lstrip a ++ (Ch.lbrace :: mid) ++ Ch.rbrace :: b).
  rewrite app_assoc, rstrip_app_nonspace by reflexivity.
  now rewrite <- app_assoc.
Qed.

(** What the Locator returns when no opening brace comes before the
    object and no closing brace after it. *)
Lemma extract_json_between (pre mid post : str) :
  ~ In Ch.lbrace pre -> ~ In Ch.rbrace post ->
  _extract_json (pre ++ Ch.lbrace :: mid ++ Ch.rbrace :: post)
  = Ch.lbrace :: unfence mid ++ [Ch.rbrace].
Proof.
  intros Hpre Hpost. unfold _extract_json.
  change (replace (replace ?t fence_json []) fence []) with (unfence t).
  rewrite strip_between.
  rewrite (@unfence_separated _ _ Ch.lbrace lbrace_not_in_fence).
  rewrite (@unfence_separated mid _ Ch.rbrace rbrace_not_in_fence).
  rewrite strip_between.
  rewrite re_search_object_between.
  - change (Ch.lbrace :: unfence mid ++ [Ch.rbrace])
      with ((Ch.lbrace :: unfence mid) ++ [Ch.rbrace]).
    unfold strip. cbn [app lstrip].
    change (isspace Ch.lbrace) with false. cbv iota.
    change (Ch.lbrace :: unfence mid ++ [Ch.rbrace])
      with ((Ch.lbrace :: unfence mid) ++ [Ch.rbrace]).
    now rewrite rstrip_nonspace_last.
  - intros H. now apply lstrip_In, unfence_In, lstrip_In in H.
  - intros H. now apply rstrip_In, unfence_In, rstrip_In in H.
Qed.

Lemma replace_from_absent (old new s : str) (c : char) :
  ~ In c s -> replace_from (c :: old) new 0 s = s.
Proof.
  induction s as [|x s IH]; intros H; [reflexivity|].
  rewrite replace_from_nomatch.
  - rewrite IH; [reflexivity|]. cbn in H. tauto.
  - apply startswith_head_neq. intros ->. cbn in H. tauto.
Qed.

Lemma unfence_absent (s : str) : ~ In Ch.backtick s -> unfence s = s.
Proof.
  intros H. rewrite unfence_eq.
  change fence_json with (Ch.backtick :: lit "``json").
  change fence with (Ch.backtick :: lit "``").
  rewrite (@replace_from_absent (lit "``json") [] s Ch.backtick H).
  exact (@replace_from_absent (lit "``") [] s Ch.backtick H).
Qed.

Lemma json_loads_unfence (s : str) (v : pyobj) :
  json_loads s = Some v -> exists v', json_loads (unfence s) = Some v'.
Proof.
  intros H. rewrite unfence_eq.
  destruct (json_loads_deleted fence_json_marker H
              (@replace_from_deleted fence_json s ltac:(discriminate)))
    as (v1 & H1).
  exact (json_loads_deleted fence_marker H1
           (@replace_from_deleted fence _ ltac:(discriminate))).
Qed.

(** C1, as stated, fails: the text below contains exactly one well-formed
    JSON object, but a brace in the prose after it widens the greedy span
    and the returned candidate does not decode. *)
Lemma C1_prose_with_braces :
  object_texts (lit "{'a': 1} or {b}") = [lit "{'a': 1}"] /\
  _extract_json (lit "{'a': 1} or {b}") = lit "{'a': 1} or {b}" /\
  json_loads (_extract_json (lit "{'a': 1} or {b}")) = None.
Proof.
  split; [vm_compute; reflexivity|].
  split; vm_compute; reflexivity.
Qed.

(** C1, amended.  For every text made of a well-formed JSON object (a text
    from an opening brace to a closing brace that decodes) surrounded by
    arbitrary prose and fence markers in which no opening brace comes before
    the object and no closing brace after it, the Locator returns the
    object's text with the fence markers inside it deleted; that candidate
    decodes to a dict, and it is the object's text itself when the object
    holds no backtick. *)
Theorem C1_locator_finds_object (pre mid post : str) (v : pyobj) :
  ~ In Ch.lbrace pre -> ~ In Ch.rbrace post ->
  json_loads (Ch.lbrace :: mid ++ [Ch.rbrace]) = Some v ->
  _extract_json (pre ++ (Ch.lbrace :: mid ++ [Ch.rbrace]) ++ post)
  = unfence (Ch.lbrace :: mid ++ [Ch.rbrace]) /\
  (exists v',
      json_loads (_extract_json (pre ++ (Ch.lbrace :: mid ++ [Ch.rbrace]) ++ post))
      = Some v' /\ is_dict v' = true) /\
  (~ In Ch.backtick mid ->
   _extract_json (pre ++ (Ch.lbrace :: mid ++ [Ch.rbrace]) ++ post)
   = Ch.lbrace :: mid ++ [Ch.rbrace]).
Proof.
  intros Hpre Hpost Hv.
  assert (E : _extract_json (pre ++ (Ch.lbrace :: mid ++ [Ch.rbrace]) ++ post)
              = Ch.lbrace :: unfence mid ++ [Ch.rbrace]).
  { cbn [app]. rewrite <- app_assoc. cbn [app].
    now apply extract_json_between. }
  rewrite E. split; [now rewrite unfence_object|]. split.
  - destruct (json_loads_unfence _ Hv) as (v' & Hv').
    rewrite unfence_object in Hv'. exists v'. split; [assumption|].
    eapply json_loads_brace_dict, Hv'.
  - intros Hb. now rewrite unfence_absent.
Qed.

Lemma C1_locator_finds_object_witness :
  ~ In Ch.lbrace (lit "Here it is: ```json ") /\
  ~ In Ch.rbrace (lit " ``` Done.") /\
  json_loads (Ch.lbrace :: lit "'x': '```', 'y': [1, 2]" ++ [Ch.rbrace])
  = Some (PyDict [(lit "x", PyStr (lit "```"));
                  (lit "y", PyList [PyInt 1; PyInt 2])]) /\
  _extract_json
    (lit "Here it is: ```json " ++
     (Ch.lbrace :: lit "'x': '```', 'y': [1, 2]" ++ [Ch.rbrace]) ++
     lit " ``` Done.")
  = unfence (Ch.lbrace :: lit "'x': '```', 'y': [1, 2]" ++ [Ch.rbrace]).
Proof.
  assert (H1 : ~ In Ch.lbrace (lit "Here it is: ```json "))
    by (vm_compute; intuition discriminate).
  assert (H2 : ~ In Ch.rbrace (lit " ``` Done."))
    by (vm_compute; intuition discriminate).
  assert (H3 : json_loads (Ch.lbrace :: lit "'x': '```', 'y': [1, 2]" ++ [Ch.rbrace])
               = Some (PyDict [(lit "x", PyStr (lit "```"));
                               (lit "y", PyList [PyInt 1; PyInt 2])]))
    by (vm_compute; reflexivity).
  split; [exact H1|]. split; [exact H2|]. split; [exact H3|].
  exact (proj1 (@C1_locator_finds_object _ _ _ _ H1 H2 H3)).
Defined.


(** ** Occurrences *)

Lemma contains_cons (x : char) (t p : str) :
  contains (x :: t) p = startswith (x :: t) p || contains t p.
Proof. reflexivity. Qed.

Lemma contains_false_suffix (a s p : str) :
  contains (a ++ s) p = false -> contains s p = false.
Proof.
  induction a as [|x a IH]; [easy|]. cbn [app]. rewrite contains_cons.
  intros H. apply orb_false_elim in H as [_ H]. now apply IH.
Qed.

Lemma contains_false_prefix (s b p : str) :
  contains (s ++ b) p = false -> contains s p = false.
Proof.
  induction s as [|x s IH]; intros H.
  - destruct p as [|y p]; [|reflexivity]. now destruct b.
  - cbn [app] in H. rewrite contains_cons in *.
    apply orb_false_elim in H as [H1 H2]. rewrite (IH H2), orb_false_r.
    destruct (startswith (x :: s) p) eqn:E; [|reflexivity].
    pose proof (@startswith_extend p (x :: s) b E) as E'.
    cbn [app] in E'. congruence.
Qed.

Lemma contains_false_middle (a s b p : str) :
  contains (a ++ s ++ b) p = false -> contains s p = false.
Proof. intros H. eapply contains_false_prefix, contains_false_suffix, H. Qed.

Lemma startswith_app_prefix (s p q : str) :
  startswith s (p ++ q) = true -> startswith s p = true.
Proof.
  revert s. induction p as [|x p IH]; intros s H; [reflexivity|].
  destruct s as [|c s]; [discriminate|]. cbn in *.
  apply andb_prop in H as [-> H]. now apply IH.
Qed.

Lemma contains_longer_false (s p q : str) :
  contains s p = false -> contains s (p ++ q) = false.
Proof.
  induction s as [|x s IH]; intros H.
  - destruct p; [discriminate|reflexivity].
  - rewrite contains_cons in *. apply orb_false_elim in H as [H1 H2].
    rewrite (IH H2), orb_false_r.
    destruct (startswith (x :: s) (p ++ q)) eqn:E; [|reflexivity].
    now rewrite (startswith_app_prefix _ _ _ E) in H1.
Qed.

(** Replacing something that does not occur changes nothing. *)
Lemma replace_from_not_contained (old new s : str) :
  contains s old = false -> replace_from old new 0 s = s.
Proof.
  induction s as [|x s IH]; intros H; [reflexivity|].
  rewrite contains_cons in H. apply orb_false_elim in H as [H1 H2].
  rewrite replace_from_nomatch by assumption. now rewrite IH.
Qed.

(** ** Deleting a run pattern leaves no occurrence of it *)

Lemma startswith_repeat (c : char) (k : nat) (s : str) :
  startswith s (repeat c k) = (k <=? lead c s).
Proof.
  revert s. induction k as [|k IH]; intros s; [reflexivity|].
  destruct s as [|x t]; [reflexivity|]. cbn [repeat startswith lead].
  destruct (N.eqb x c); [|reflexivity]. now rewrite IH.
Qed.

Section RunPattern.
Variable c : char.
Variable k : nat.
Let p : str := repeat c (S k).

Lemma replace_run_lead_small (s : str) :
  lead c s < S k -> lead c (replace_from p [] 0 s) = lead c s.
Proof.
  induction s as [|x t IH]; intros L; [reflexivity|].
  assert (E : startswith (x :: t) p = false).
  { unfold p. rewrite startswith_repeat. apply Nat.leb_gt. exact L. }
  rewrite replace_from_nomatch by assumption. cbn [lead] in *.
  destruct (N.eqb x c); [|reflexivity]. rewrite IH; [reflexivity|lia].
Qed.

Lemma replace_run_not_contained (s : str) :
  contains (replace_from p [] 0 s) p = false.
Proof.
  remember (length s) as n eqn:Hn. revert s Hn.
  induction n as [n IH] using lt_wf_ind. intros s ->.
  destruct s as [|x t]; [reflexivity|].
  destruct (startswith (x :: t) p) eqn:E.
  - rewrite (@startswith_split p (x :: t) E).
    rewrite replace_from_match by discriminate. cbn [app].
    eapply IH; [|reflexivity].
    rewrite (@startswith_split p (x :: t) E) at 2. rewrite length_app.
    unfold p. cbn. lia.
  - rewrite replace_from_nomatch by assumption. rewrite contains_cons.
    rewrite (IH (length t)) with (s := t); [|cbn; lia|reflexivity].
    rewrite orb_false_r. unfold p in *. rewrite startswith_repeat in *.
    apply Nat.leb_gt in E. apply Nat.leb_gt. cbn [lead] in *.
    destruct (N.eqb x c); [|lia].
    fold p. rewrite replace_run_lead_small; lia.
Qed.
End RunPattern.

Lemma replace_fence_not_contained (s : str) :
  contains (replace s fence []) fence = false.
Proof. exact (replace_run_not_contained Ch.backtick 2 s). Qed.

(** ** [strip] *)

Lemma lstrip_head (s : str) (c : char) (t : str) :
  lstrip s = c :: t -> isspace c = false.
Proof.
  induction s as [|x s IH]; [discriminate|]. cbn.
  destruct (isspace x) eqn:E; [exact IH|]. now intros [= <- _].
Qed.

Lemma lstrip_fixed (s : str) :
  match s with [] => True | c :: _ => isspace c = false end -> lstrip s = s.
Proof. destruct s as [|c t]; [reflexivity|]. cbn. now intros ->. Qed.

Lemma rstrip_head (s : str) (c : char) (t : str) :
  rstrip s = c :: t -> exists t0, s = c :: t0.
Proof.
  destruct s as [|x s]; [discriminate|]. cbn.
  destruct (rstrip s).
  - destruct (isspace x); [discriminate|]. intros [= <- _]. now eexists.
  - intros [= <- _]. now eexists.
Qed.

Lemma rstrip_rstrip (s : str) : rstrip (rstrip s) = rstrip s.
Proof.
  induction s as [|c t IH]; [reflexivity|]. cbn [rstrip].
  destruct (rstrip t) as [|y t'] eqn:E.
  - destruct (isspace c) eqn:Ec; [reflexivity|]. cbn. now rewrite Ec.
  - cbn [rstrip]. cbn [rstrip] in IH. now rewrite IH.
Qed.

Lemma strip_strip (s : str) : strip (strip s) = strip s.
Proof.
  unfold strip. rewrite lstrip_fixed; [apply rstrip_rstrip|].
  destruct (rstrip (lstrip s)) as [|c t] eqn:E; [exact I|].
  destruct (rstrip_head _ E) as (t0 & E0). eapply lstrip_head, E0.
Qed.

Lemma lstrip_suffix (s : str) : exists a, s = a ++ lstrip s.
Proof.
  induction s as [|c t (a & IH)]; [now exists []|]. cbn.
  destruct (isspace c); [|now exists []].
  exists (c :: a). cbn. now f_equal.
Qed.

Lemma rstrip_prefix (s : str) : exists b, s = rstrip s ++ b.
Proof.
  induction s as [|c t (b & IH)]; [now exists []|]. cbn.
  destruct (rstrip t) as [|y t'].
  - destruct (isspace c); [now exists (c :: t)|].
    exists t. reflexivity.
  - exists b. cbn. now f_equal.
Qed.

Lemma strip_middle (s : str) : exists a b, s = a ++ strip s ++ b.
Proof.
  destruct (lstrip_suffix s) as (a & Ha).
  destruct (rstrip_prefix (lstrip s)) as (b & Hb).
  exists a, b. unfold strip. now rewrite <- Hb.
Qed.

Lemma lstrip_spaces (a s : str) :
  forallb isspace a = true -> lstrip (a ++ s) = lstrip s.
Proof.
  induction a as [|x a IH]; [reflexivity|]. cbn.
  intros H. apply andb_prop in H as [-> H]. now apply IH.
Qed.

Lemma rstrip_spaces (s b : str) :
  forallb isspace b = true -> rstrip (s ++ b) = rstrip s.
Proof.
  intros Hb. induction s as [|x s IH].
  - cbn [app]. induction b as [|y b IHb]; [reflexivity|]. cbn in *.
    apply andb_prop in Hb as [Hy Hb]. now rewrite (IHb Hb), Hy.
  - cbn [app rstrip]. now rewrite IH.
Qed.

Lemma strip_padded (a s b : str) :
  forallb isspace a = true -> forallb isspace b = true ->
  strip (a ++ s ++ b) = strip s.
Proof.
  intros Ha Hb. unfold strip. rewrite lstrip_spaces by assumption.
  induction s as [|x s IH].
  - cbn [app]. rewrite <- (app_nil_r b), lstrip_spaces by assumption.
    reflexivity.
  - cbn [app lstrip]. destruct (isspace x); [exact IH|].
    change (x :: s ++ b) with ((x :: s) ++ b). now apply rstrip_spaces.
Qed.

(** ** More about the Locator *)

Lemma match_star_rbrace_prefix (s m : str) :
  match_star_rbrace s = Some m -> exists b, s = m ++ b.
Proof.
  revert m. induction s as [|c t IH]; intros m H; [discriminate|].
  cbn in H. destruct (match_star_rbrace t) as [m0|].
  - injection H as <-. destruct (IH _ eq_refl) as (b & ->). now exists b.
  - destruct (N.eqb c Ch.rbrace); [|discriminate]. injection H as <-.
    now exists t.
Qed.

(** A match is a part of the text that starts with an opening brace and
    ends with a closing brace. *)
Lemma re_search_object_match (s m : str) :
  re_search_object s = Some m ->
  exists a mid b, s = a ++ m ++ b /\ m = Ch.lbrace :: mid ++ [Ch.rbrace].
Proof.
  revert m. induction s as [|c t IH]; intros m H; [discriminate|].
  cbn in H.
  assert (R : re_search_object t = Some m ->
              exists a mid b, c :: t = a ++ m ++ b /\
                              m = Ch.lbrace :: mid ++ [Ch.rbrace]).
  { intros H'. destruct (IH _ H') as (a & mid & b & -> & ->).
    now exists (c :: a), mid, b. }
  destruct (N.eqb c Ch.lbrace) eqn:E; [|now apply R].
  destruct (match_star_rbrace t) as [m0|] eqn:Em; [|now apply R].
  injection H as <-. apply N.eqb_eq in E as ->.
  destruct (match_star_rbrace_prefix _ Em) as (b & ->).
  destruct (match_star_rbrace_last _ Em) as (mid & ->).
  now exists [], mid, b.
Qed.

(** The two ways the Locator answers, on the trimmed, fence-stripped
    text: a span of it, or all of it when the pattern does not match. *)
Lemma extract_json_cases (text : str) :
  let remaining := strip (unfence (strip text)) in
  (exists a mid b,
      remaining = a ++ (Ch.lbrace :: mid ++ [Ch.rbrace]) ++ b /\
      _extract_json text = Ch.lbrace :: mid ++ [Ch.rbrace]) \/
  (re_search_object remaining = None /\ _extract_json text = remaining).
Proof.
  intros remaining. unfold _extract_json.
  change (replace (replace (strip text) fence_json []) fence [])
    with (unfence (strip text)).
  fold remaining. destruct (re_search_object remaining) as [m|] eqn:E.
  - left. rewrite (strip_match _ E).
    destruct (re_search_object_match _ E) as (a & mid & b & Hr & ->).
    now exists a, mid, b.
  - now right.
Qed.

Lemma remaining_fence_free (text : str) :
  contains (strip (unfence (strip text))) fence = false.
Proof.
  destruct (strip_middle (unfence (strip text))) as (a & b & H).
  apply (@contains_false_middle a _ b). rewrite <- H.
  apply replace_fence_not_contained.
Qed.

Lemma extract_json_fence_free (text : str) :
  contains (_extract_json text) fence = false.
Proof.
  pose proof (remaining_fence_free text) as F.
  destruct (extract_json_cases text) as [(a & mid & b & Hr & ->)|[_ ->]];
    [|exact F].
  rewrite Hr in F. exact (contains_false_middle _ _ _ _ F).
Qed.

Lemma extract_json_stripped (text : str) :
  strip (_extract_json text) = _extract_json text.
Proof.
  unfold _extract_json.
  destruct (re_search_object _) as [m|] eqn:E.
  - now rewrite (strip_match _ E), (strip_match _ E).
  - apply strip_strip.
Qed.

Lemma re_search_object_span_itself (mid : str) :
  re_search_object (Ch.lbrace :: mid ++ [Ch.rbrace])
  = Some (Ch.lbrace :: mid ++ [Ch.rbrace]).
Proof.
  exact (@re_search_object_between [] mid [] (fun H => H) (fun H => H)).
Qed.

Lemma match_star_rbrace_found (x b : str) :
  exists m, match_star_rbrace (x ++ Ch.rbrace :: b) = Some m.
Proof.
  induction x as [|c x (m & IH)]; cbn [app match_star_rbrace].
  - destruct (match_star_rbrace b); eexists; reflexivity.
  - rewrite IH. eexists; reflexivity.
Qed.

Lemma re_search_object_found (a x b : str) :
  re_search_object (a ++ Ch.lbrace :: x ++ Ch.rbrace :: b) = None -> False.
Proof.
  destruct (match_star_rbrace_found x b) as (m & M).
  induction a as [|c a IH]; cbn [app re_search_object].
  - change (N.eqb Ch.lbrace Ch.lbrace) with true. cbv iota.
    now rewrite M.
  - destruct (N.eqb c Ch.lbrace); [|exact IH].
    destruct (match_star_rbrace (a ++ _)); [easy|exact IH].
Qed.

(** X1.  The candidate the Locator returns has no whitespace at either
    end, and it either runs from an opening brace to a closing brace or
    holds no opening brace that is followed by a closing brace. *)
Theorem X1_candidate_trimmed_and_shaped (text : str) :
  strip (_extract_json text) = _extract_json text /\
  ((exists mid, _extract_json text = Ch.lbrace :: mid ++ [Ch.rbrace]) \/
   re_search_object (_extract_json text) = None).
Proof.
  split; [apply extract_json_stripped|].
  destruct (extract_json_cases text) as [(a & mid & b & _ & E)|[N E]].
  - left. now exists mid.
  - right. now rewrite E.
Qed.

(** X2.  The candidate never contains a fence marker: neither three
    backticks in a row nor, hence, the marker tagged [json]. *)
Theorem X2_candidate_has_no_fence (text : str) :
  contains (_extract_json text) fence = false /\
  contains (_extract_json text) fence_json = false.
Proof.
  split; [apply extract_json_fence_free|].
  change fence_json with (fence ++ lit "json").
  apply contains_longer_false, extract_json_fence_free.
Qed.

Lemma extract_json_idempotent (text : str) :
  _extract_json (_extract_json text) = _extract_json text.
Proof.
  pose proof (extract_json_fence_free text) as F.
  pose proof (extract_json_stripped text) as S.
  set (e := _extract_json text) in *.
  assert (U : strip (unfence (strip e)) = e).
  { rewrite S, unfence_eq.
    rewrite (@replace_from_not_contained fence_json [] e)
      by (change fence_json with (fence ++ lit "json");
          now apply contains_longer_false).
    now rewrite replace_from_not_contained. }
  destruct (extract_json_cases e) as [(a & mid & b & Hr & E)|[N E]];
    rewrite U in *; [|exact E].
  destruct (extract_json_cases text) as [(a0 & mid0 & b0 & _ & E0)|[N0 E0]];
    fold e in E0.
  - (* [e] is a span: the search finds all of it *)
    unfold _extract_json.
    change (replace (replace (strip e) fence_json []) fence [])
      with (unfence (strip e)).
    rewrite U, E0, re_search_object_span_itself.
    rewrite <- E0. exact S.
  - (* [e] is the unmatched text, yet a span was found in it *)
    rewrite <- E0 in N0. rewrite Hr in N0. exfalso.
    replace (a ++ (Ch.lbrace :: mid ++ [Ch.rbrace]) ++ b)
      with (a ++ Ch.lbrace :: mid ++ Ch.rbrace :: b) in N0
      by (cbn [app]; now rewrite <- app_assoc).
    exact (re_search_object_found _ _ _ N0).
Qed.

(** X3.  The Locator is idempotent: applied to its own result it returns
    that result; so a response that consists of the candidate logged for
    an earlier response gives the pipeline's outcome for that response
    again. *)
Theorem X3_locator_idempotent (text : str) (self : GeminiClient)
    (image_bytes : list N) (prompt : str) (mime : option str) (w : world) :
  _extract_json (_extract_json text) = _extract_json text /\
  fst (analyze_image_with_prompt (answers (_extract_json text)) self
         image_bytes prompt mime w)
  = fst (analyze_image_with_prompt (answers text) self image_bytes prompt mime w).
Proof.
  split; [apply extract_json_idempotent|].
  now rewrite !analyze_answers, extract_json_idempotent.
Qed.

Lemma extract_json_padded (a text b : str) :
  forallb isspace a = true -> forallb isspace b = true ->
  _extract_json (a ++ text ++ b) = _extract_json text.
Proof.
  intros Ha Hb. unfold _extract_json. now rewrite strip_padded.
Qed.

(** X4.  Whitespace around the response text changes neither the
    candidate nor what the pipeline returns or raises. *)
Theorem X4_surrounding_whitespace_ignored (a text b : str)
    (self : GeminiClient) (image_bytes : list N) (prompt : str)
    (mime : option str) (w : world) :
  forallb isspace a = true -> forallb isspace b = true ->
  _extract_json (a ++ text ++ b) = _extract_json text /\
  fst (analyze_image_with_prompt (answers (a ++ text ++ b)) self image_bytes
         prompt mime w)
  = fst (analyze_image_with_prompt (answers text) self image_bytes prompt mime w).
Proof.
  intros Ha Hb. split; [now apply extract_json_padded|].
  now rewrite !analyze_answers, extract_json_padded.
Qed.

Lemma X4_surrounding_whitespace_ignored_witness :
  forallb isspace [Ch.lf; Ch.space] = true /\
  forallb isspace [Ch.tab; 160%N; Ch.cr; Ch.lf] = true /\
  _extract_json ([Ch.lf; Ch.space] ++ lit "ok {'a': 1}" ++ [Ch.tab; 160%N; Ch.cr; Ch.lf])
  = _extract_json (lit "ok {'a': 1}").
Proof.
  split; [reflexivity|]. split; [reflexivity|].
  exact (proj1 (@X4_surrounding_whitespace_ignored [Ch.lf; Ch.space]
                  (lit "ok {'a': 1}") [Ch.tab; 160%N; Ch.cr; Ch.lf]
                  {| api_key := lit "key"; model_name := lit "gemini" |}
                  [] (lit "describe") None no_effects eq_refl eq_refl)).
Defined.

(** ** More about the pipeline *)

(** The whole run of the pipeline when the model answers. *)
Lemma analyze_returns (generate_content : request -> reply) (self : GeminiClient)
    (image_bytes : list N) (prompt : str) (mime : option str)
    (resp : response) (w : world) :
  let req := sent_request self image_bytes prompt
               (match mime with Some m => m | None => lit "image/jpeg" end) in
  generate_content req = Returns resp ->
  analyze_image_with_prompt generate_content self image_bytes prompt mime w =
  let w' := after_reply w req (text_or_empty resp) in
  let cleaned := _extract_json (text_or_empty resp) in
  match json_loads cleaned with
  | Some v => (inl v, w')
  | None =>
      match repair_spec cleaned with
      | Some v => (inl v, w')
      | None => (inr repair_failed, log_error w' (lit "JSON repair failed"))
      end
  end.
Proof.
  intros req H. unfold analyze_image_with_prompt, try_except, bind, model_call.
  fold (sent_request self image_bytes prompt
          (match mime with Some m => m | None => lit "image/jpeg" end)).
  fold req. rewrite H. cbn [logger_error]. cbv zeta.
  unfold after_reply. cbn [calls records]. rewrite <- app_assoc. cbn [app].
  destruct (json_loads (_extract_json (text_or_empty resp))); [reflexivity|].
  unfold_repair.
  destruct (Nat.eqb _ _).
  - destruct (json_loads (_ ++ [Ch.rbrace])); [reflexivity|].
    now destruct (json_loads _).
  - now destruct (json_loads _).
Qed.

(** The whole run of the pipeline when the model call raises. *)
Lemma analyze_raises (generate_content : request -> reply) (self : GeminiClient)
    (image_bytes : list N) (prompt : str) (mime : option str)
    (e : exception) (w : world) :
  let req := sent_request self image_bytes prompt
               (match mime with Some m => m | None => lit "image/jpeg" end) in
  generate_content req = Raises e ->
  analyze_image_with_prompt generate_content self image_bytes prompt mime w =
  match e with
  | Exception message =>
      (inr (HTTPException 502 (lit "Gemini Vision API Error: " ++ message)),
       {| calls := calls w ++ [req];
          records := records w ++ [LogException (lit "Gemini Vision API error")] |})
  | HTTPException _ _ | BaseException _ =>
      (inr e, {| calls := calls w ++ [req]; records := records w |})
  end.
Proof.
  intros req H. unfold analyze_image_with_prompt, try_except, bind, model_call.
  fold (sent_request self image_bytes prompt
          (match mime with Some m => m | None => lit "image/jpeg" end)).
  fold req. rewrite H. now destruct e.
Qed.

Lemma replace_from_head (old new t : str) (c x : char) :
  c <> x ->
  replace_from (x :: old) new 0 (c :: t) = c :: replace_from (x :: old) new 0 t.
Proof.
  intros H. apply replace_from_nomatch. now apply startswith_head_neq.
Qed.

(** Whatever the Repair Engine decodes starts like the candidate when
    that starts with an opening brace. *)
Lemma repair_spec_brace_dict (rest : str) (v : pyobj) :
  repair_spec (Ch.lbrace :: rest) = Some v -> is_dict v = true.
Proof.
  unfold repair_spec, heuristics, first_accepted, missing_trailing_brace,
    trailing_commas.
  assert (T : replace (replace (Ch.lbrace :: rest) [Ch.comma; Ch.rbrace] [Ch.rbrace])
                [Ch.comma; Ch.rbracket] [Ch.rbracket]
              = Ch.lbrace ::
                replace (replace rest [Ch.comma; Ch.rbrace] [Ch.rbrace])
                  [Ch.comma; Ch.rbracket] [Ch.rbracket]).
  { unfold replace. now rewrite !replace_from_head by discriminate. }
  rewrite T. clear T.
  destruct (Nat.eqb _ _).
  - cbn [app].
    destruct (json_loads (Ch.lbrace :: rest ++ [Ch.rbrace])) eqn:E1.
    + intros [= <-]. eapply json_loads_brace_dict, E1.
    + destruct (json_loads (Ch.lbrace :: replace _ _ _)) eqn:E2; [|easy].
      intros [= <-]. eapply json_loads_brace_dict, E2.
  - destruct (json_loads (Ch.lbrace :: replace _ _ _)) eqn:E2; [|easy].
    intros [= <-]. eapply json_loads_brace_dict, E2.
Qed.

(** X5.  When the candidate starts with an opening brace, whatever the
    pipeline returns as a success - decoded directly or after a repair -
    is a dict. *)
Theorem X5_brace_candidate_gives_dict (generate_content : request -> reply)
    (self : GeminiClient) (image_bytes : list N) (prompt : str)
    (mime : option str) (resp : response) (rest : str) (v : pyobj) (w : world) :
  generate_content
    (sent_request self image_bytes prompt
       (match mime with Some m => m | None => lit "image/jpeg" end))
  = Returns resp ->
  _extract_json (text_or_empty resp) = Ch.lbrace :: rest ->
  fst (analyze_image_with_prompt generate_content self image_bytes prompt mime w)
  = inl v ->
  is_dict v = true.
Proof.
  intros H Hc. rewrite (analyze_on_text _ _ _ _ _ w H). cbv zeta. rewrite Hc.
  destruct (json_loads (Ch.lbrace :: rest)) eqn:E1.
  - intros [= <-]. eapply json_loads_brace_dict, E1.
  - destruct (repair_spec (Ch.lbrace :: rest)) eqn:E2; [|easy].
    intros [= <-]. eapply repair_spec_brace_dict, E2.
Qed.

Lemma X5_brace_candidate_gives_dict_witness :
  answers (lit "result: {'a': [1, 2,]} end")
    (sent_request {| api_key := lit "key"; model_name := lit "gemini" |}
       [] (lit "describe") (lit "image/jpeg"))
  = Returns (Text (lit "result: {'a': [1, 2,]} end")) /\
  _extract_json (text_or_empty (Text (lit "result: {'a': [1, 2,]} end")))
  = Ch.lbrace :: lit "'a': [1, 2,]}" /\
  fst (analyze_image_with_prompt (answers (lit "result: {'a': [1, 2,]} end"))
         {| api_key := lit "key"; model_name := lit "gemini" |}
         [] (lit "describe") None no_effects)
  = inl (PyDict [(lit "a", PyList [PyInt 1; PyInt 2])]) /\
  is_dict (PyDict [(lit "a", PyList [PyInt 1; PyInt 2])]) = true.
Proof.
  assert (H2 : _extract_json (text_or_empty (Text (lit "result: {'a': [1, 2,]} end")))
               = Ch.lbrace :: lit "'a': [1, 2,]}") by (vm_compute; reflexivity).
  assert (H3 : fst (analyze_image_with_prompt
                      (answers (lit "result: {'a': [1, 2,]} end"))
                      {| api_key := lit "key"; model_name := lit "gemini" |}
                      [] (lit "describe") None no_effects)
               = inl (PyDict [(lit "a", PyList [PyInt 1; PyInt 2])]))
    by (rewrite analyze_answers; vm_compute; reflexivity).
  split; [reflexivity|]. split; [exact H2|]. split; [exact H3|].
  exact (@X5_brace_candidate_gives_dict
           (answers (lit "result: {'a': [1, 2,]} end"))
           {| api_key := lit "key"; model_name := lit "gemini" |}
           [] (lit "describe") None
           (Text (lit "result: {'a': [1, 2,]} end"))
           (lit "'a': [1, 2,]}") _ no_effects eq_refl H2 H3).
Defined.

(** ** Opening braces are never invented *)

Lemma skip_ws_In (s : str) (x : char) : In x (skip_ws s) -> In x s.
Proof.
  induction s as [|c t IH]; [easy|]. cbn.
  destruct (is_ws c); [intros H; right; now apply IH|easy].
Qed.

Lemma array_loop_list (scan_value : str -> scan) (fuel : nat) :
  forall values s v r,
    array_loop scan_value fuel values s = Scanned v r -> is_dict v = false.
Proof.
  induction fuel as [|fuel IH]; intros values s v r H; [discriminate|].
  cbn [array_loop] in H.
  destruct (scan_value s) as [value s1| |]; try discriminate.
  destruct (skip_ws s1) as [|nextchar s2]; [discriminate|].
  destruct (N.eqb nextchar Ch.rbracket); [now injection H as <- <-|].
  destruct (N.eqb nextchar Ch.comma); [|discriminate].
  eapply IH, H.
Qed.

(** Only a text whose first character is an opening brace is scanned to
    a dict. *)
Lemma scan_once_dict_head (fuel : nat) (s : str) (v : pyobj) (r : str) :
  scan_once fuel s = Scanned v r -> is_dict v = true ->
  exists t, s = Ch.lbrace :: t.
Proof.
  destruct fuel as [|fuel]; [discriminate|]. cbn [scan_once].
  destruct s as [|nextchar t]; [discriminate|].
  destruct (N.eqb nextchar Ch.dquote).
  { destruct (scanstring t) as [[x rest]|]; [|discriminate].
    intros [= <- <-]. discriminate. }
  destruct (N.eqb nextchar Ch.lbrace) eqn:E.
  { apply N.eqb_eq in E as ->. intros _ _. now eexists. }
  destruct (N.eqb nextchar Ch.lbracket).
  { unfold JSONArray. destruct (skip_ws t) as [|c t0]; [discriminate|].
    destruct (N.eqb c Ch.rbracket).
    - intros [= <- <-]. discriminate.
    - intros H D. apply array_loop_list in H. congruence. }
  destruct (startswith _ (lit "null")); [intros [= <- <-]; discriminate|].
  destruct (startswith _ (lit "true")); [intros [= <- <-]; discriminate|].
  destruct (startswith _ (lit "false")); [intros [= <- <-]; discriminate|].
  destruct (match_number _) as [[[[i f] e] rest]|].
  { destruct f, e; intros [= <- <-]; discriminate. }
  destruct (startswith _ (lit "NaN")); [intros [= <- <-]; discriminate|].
  destruct (startswith _ (lit "Infinity")); [intros [= <- <-]; discriminate|].
  destruct (startswith _ (lit "-Infinity")); [intros [= <- <-]; discriminate|].
  discriminate.
Qed.

Lemma json_loads_dict_brace (s : str) (v : pyobj) :
  json_loads s = Some v -> is_dict v = true -> In Ch.lbrace s.
Proof.
  unfold json_loads. destruct (startswith s [65279%N]); [discriminate|].
  destruct (scan_once _ _) as [obj rest| |] eqn:E; try discriminate.
  destruct (skip_ws rest); [|discriminate]. intros [= <-] D.
  destruct (scan_once_dict_head _ _ E D) as (t & Ht).
  apply skip_ws_In. rewrite Ht. now left.
Qed.

Lemma replace_from_In_new (old new s : str) (k : nat) (x : char) :
  In x (replace_from old new k s) -> In x s \/ In x new.
Proof.
  revert k. induction s as [|c t IH]; intros k H; [now left|].
  cbn [replace_from] in H. destruct k as [|k].
  - destruct (startswith (c :: t) old).
    + apply in_app_or in H as [H|H]; [now right|].
      destruct (IH _ H); [left; now right|now right].
    + destruct H as [H|H]; [left; now left|].
      destruct (IH _ H); [left; now right|now right].
  - destruct (IH _ H); [left; now right|now right].
Qed.

Lemma count_from_absent (s : str) (x : char) :
  ~ In x s -> count_from [x] 0 s = 0.
Proof.
  induction s as [|c t IH]; intros H; [reflexivity|].
  cbn [count_from].
  rewrite startswith_head_neq; [apply IH|]; cbn in H; intuition.
Qed.

(** Every character of the candidate comes from the text. *)
Lemma extract_json_In (text : str) (x : char) :
  In x (_extract_json text) -> In x text.
Proof.
  assert (R : In x (strip (unfence (strip text))) -> In x text).
  { unfold strip. intros H.
    apply rstrip_In, lstrip_In, unfence_In, rstrip_In, lstrip_In in H.
    exact H. }
  destruct (extract_json_cases text) as [(a & mid & b & Hr & ->)|[_ ->]];
    [|exact R].
  intros H. apply R. rewrite Hr.
  apply in_or_app. right. apply in_or_app. now left.
Qed.

Lemma repair_spec_no_brace (c : str) (v : pyobj) :
  ~ In Ch.lbrace c -> repair_spec c = Some v -> is_dict v = false.
Proof.
  intros Hc. unfold repair_spec, heuristics, first_accepted,
    missing_trailing_brace, trailing_commas.
  assert (E : Nat.eqb (count c [Ch.lbrace]) (count c [Ch.rbrace] + 1) = false).
  { apply Nat.eqb_neq. unfold count at 1. rewrite count_from_absent by assumption.
    lia. }
  rewrite E.
  destruct (json_loads _) as [v0|] eqn:E2; [|discriminate].
  intros [= <-]. destruct (is_dict v0) eqn:D; [|reflexivity].
  exfalso. apply Hc. pose proof (json_loads_dict_brace _ E2 D) as H.
  unfold replace in H.
  apply replace_from_In_new in H as [H|[H|[]]]; [|discriminate H].
  apply replace_from_In_new in H as [H|[H|[]]]; [exact H|discriminate H].
Qed.

(** X6.  A response text without any opening brace never yields a dict:
    when the pipeline succeeds on it, the value returned is a scalar or a
    list. *)
Theorem X6_no_brace_never_dict (generate_content : request -> reply)
    (self : GeminiClient) (image_bytes : list N) (prompt : str)
    (mime : option str) (resp : response) (v : pyobj) (w : world) :
  generate_content
    (sent_request self image_bytes prompt
       (match mime with Some m => m | None => lit "image/jpeg" end))
  = Returns resp ->
  ~ In Ch.lbrace (text_or_empty resp) ->
  fst (analyze_image_with_prompt generate_content self image_bytes prompt mime w)
  = inl v ->
  is_dict v = false.
Proof.
  intros H Hn. rewrite (analyze_on_text _ _ _ _ _ w H). cbv zeta.
  assert (Hc : ~ In Ch.lbrace (_extract_json (text_or_empty resp))).
  { intros Hi. apply Hn. eapply extract_json_In, Hi. }
  destruct (json_loads _) as [v0|] eqn:E1.
  - intros [= <-]. destruct (is_dict v0) eqn:D; [|reflexivity].
    exfalso. apply Hc. eapply json_loads_dict_brace; eassumption.
  - destruct (repair_spec _) as [v0|] eqn:E2; [|discriminate].
    intros [= <-]. eapply repair_spec_no_brace; eassumption.
Qed.

Lemma X6_no_brace_never_dict_witness :
  answers (lit "[1, 2,]")
    (sent_request {| api_key := lit "key"; model_name := lit "gemini" |}
       [] (lit "describe") (lit "image/jpeg"))
  = Returns (Text (lit "[1, 2,]")) /\
  ~ In Ch.lbrace (text_or_empty (Text (lit "[1, 2,]"))) /\
  fst (analyze_image_with_prompt (answers (lit "[1, 2,]"))
         {| api_key := lit "key"; model_name := lit "gemini" |}
         [] (lit "describe") None no_effects)
  = inl (PyList [PyInt 1; PyInt 2]) /\
  is_dict (PyList [PyInt 1; PyInt 2]) = false.
Proof.
  assert (H2 : ~ In Ch.lbrace (text_or_empty (Text (lit "[1, 2,]"))))
    by (vm_compute; intuition discriminate).
  assert (H3 : fst (analyze_image_with_prompt (answers (lit "[1, 2,]"))
                      {| api_key := lit "key"; model_name := lit "gemini" |}
                      [] (lit "describe") None no_effects)
               = inl (PyList [PyInt 1; PyInt 2]))
    by (rewrite analyze_answers; vm_compute; reflexivity).
  split; [reflexivity|]. split; [exact H2|]. split; [exact H3|].
  exact (@X6_no_brace_never_dict (answers (lit "[1, 2,]"))
           {| api_key := lit "key"; model_name := lit "gemini" |}
           [] (lit "describe") None (Text (lit "[1, 2,]")) _ no_effects
           eq_refl H2 H3).
Defined.




(** X9.  An [HTTPException] raised inside the model call leaves the
    pipeline as it is, with its own status code and detail, and so does
    an exception outside [Exception]; nothing is logged. *)
Theorem X9_foreign_exceptions_pass_through (generate_content : request -> reply)
    (self : GeminiClient) (image_bytes : list N) (prompt : str)
    (mime : option str) (e : exception) (w : world) :
  let req := sent_request self image_bytes prompt
               (match mime with Some m => m | None => lit "image/jpeg" end) in
  generate_content req = Raises e ->
  (forall cause, e <> Exception cause) ->
  analyze_image_with_prompt generate_content self image_bytes prompt mime w
  = (inr e, {| calls := calls w ++ [req]; records := records w |}).
Proof.
  intros req H He. rewrite (analyze_raises _ _ _ _ _ w H).
  destruct e as [code detail|message|message]; try reflexivity.
  now contradiction (He message).
Qed.

Lemma X9_foreign_exceptions_pass_through_witness :
  (fun _ : request => Raises (HTTPException 429 (lit "quota")))
    (sent_request {| api_key := lit "key"; model_name := lit "gemini" |}
       [1%N] (lit "describe") (lit "image/jpeg"))
  = Raises (HTTPException 429 (lit "quota")) /\
  (forall cause, HTTPException 429 (lit "quota") <> Exception cause) /\
  analyze_image_with_prompt (fun _ => Raises (HTTPException 429 (lit "quota")))
    {| api_key := lit "key"; model_name := lit "gemini" |}
    [1%N] (lit "describe") None no_effects
  = (inr (HTTPException 429 (lit "quota")),
     {| calls := calls no_effects ++
                 [sent_request {| api_key := lit "key"; model_name := lit "gemini" |}
                    [1%N] (lit "describe") (lit "image/jpeg")];
        records := records no_effects |}).
Proof.
  assert (H2 : forall cause, HTTPException 429 (lit "quota") <> Exception cause)
    by (intros cause; discriminate).
  split; [reflexivity|]. split; [exact H2|].
  exact (@X9_foreign_exceptions_pass_through
           (fun _ => Raises (HTTPException 429 (lit "quota")))
           {| api_key := lit "key"; model_name := lit "gemini" |}
           [1%N] (lit "describe") None (HTTPException 429 (lit "quota"))
           no_effects eq_refl H2).
Defined.

Lemma extract_json_blank (text : str) :
  strip text = [] -> _extract_json text = [].
Proof. intros H. unfold _extract_json. now rewrite H. Qed.

(** X10.  A response without the attribute [text], with [text = None],
    or whose text is empty or only whitespace gives the empty candidate,
    and the pipeline raises the repair-failed error. *)
Theorem X10_blank_response_is_error (generate_content : request -> reply)
    (self : GeminiClient) (image_bytes : list N) (prompt : str)
    (mime : option str) (resp : response) (w : world) :
  let req := sent_request self image_bytes prompt
               (match mime with Some m => m | None => lit "image/jpeg" end) in
  generate_content req = Returns resp ->
  strip (text_or_empty resp) = [] ->
  _extract_json (text_or_empty resp) = [] /\
  analyze_image_with_prompt generate_content self image_bytes prompt mime w
  = (inr repair_failed,
     log_error (after_reply w req (text_or_empty resp)) (lit "JSON repair failed")).
Proof.
  intros req H Hs. pose proof (extract_json_blank _ Hs) as E.
  split; [exact E|]. rewrite (analyze_returns _ _ _ _ _ w H). cbv zeta.
  now rewrite E.
Qed.

Lemma X10_blank_response_is_error_witness :
  (fun _ : request => Returns TextNone)
    (sent_request {| api_key := lit "key"; model_name := lit "gemini" |}
       [1%N] (lit "describe") (lit "image/jpeg"))
  = Returns TextNone /\
  strip (text_or_empty TextNone) = [] /\
  fst (analyze_image_with_prompt (fun _ => Returns TextNone)
         {| api_key := lit "key"; model_name := lit "gemini" |}
         [1%N] (lit "describe") None no_effects)
  = inr repair_failed.
Proof.
  split; [reflexivity|]. split; [reflexivity|].
  exact (f_equal fst
           (proj2 (@X10_blank_response_is_error (fun _ => Returns TextNone)
                     {| api_key := lit "key"; model_name := lit "gemini" |}
                     [1%N] (lit "describe") None TextNone no_effects
                     eq_refl eq_refl))).
Defined.

(** X11.  A repair succeeds only on a candidate that has exactly one more
    opening than closing brace or that contains a comma directly before a
    closing brace or bracket. *)
Theorem X11_repair_needs_a_defect (generate_content : request -> reply)
    (self : GeminiClient) (image_bytes : list N) (prompt : str)
    (mime : option str) (resp : response) (v : pyobj) (w : world) :
  let candidate := _extract_json (text_or_empty resp) in
  generate_content
    (sent_request self image_bytes prompt
       (match mime with Some m => m | None => lit "image/jpeg" end))
  = Returns resp ->
  json_loads candidate = None ->
  fst (analyze_image_with_prompt generate_content self image_bytes prompt mime w)
  = inl v ->
  count candidate (lit "{") = count candidate (lit "}") + 1 \/
  contains candidate (lit ",}") = true \/
  contains candidate (lit ",]") = true.
Proof.
  intros candidate H Hn. rewrite (analyze_on_text _ _ _ _ _ w H). cbv zeta.
  fold candidate. rewrite Hn.
  unfold repair_spec, heuristics, first_accepted, missing_trailing_brace,
    trailing_commas.
  change (lit "{") with [Ch.lbrace]. change (lit "}") with [Ch.rbrace].
  change (lit ",}") with [Ch.comma; Ch.rbrace].
  change (lit ",]") with [Ch.comma; Ch.rbracket].
  destruct (Nat.eqb _ _) eqn:E; [apply Nat.eqb_eq in E; now left|].
  destruct (contains candidate [Ch.comma; Ch.rbrace]) eqn:C1;
    [intros _; right; now left|].
  destruct (contains candidate [Ch.comma; Ch.rbracket]) eqn:C2;
    [intros _; right; now right|].
  unfold replace.
  rewrite (@replace_from_not_contained _ [Ch.rbrace] _ C1).
  rewrite (@replace_from_not_contained _ [Ch.rbracket] _ C2). now rewrite Hn.
Qed.

Lemma X11_repair_needs_a_defect_witness :
  answers (lit "[1, 2,]")
    (sent_request {| api_key := lit "key"; model_name := lit "gemini" |}
       [] (lit "describe") (lit "image/jpeg"))
  = Returns (Text (lit "[1, 2,]")) /\
  json_loads (_extract_json (text_or_empty (Text (lit "[1, 2,]")))) = None /\
  fst (analyze_image_with_prompt (answers (lit "[1, 2,]"))
         {| api_key := lit "key"; model_name := lit "gemini" |}
         [] (lit "describe") None no_effects)
  = inl (PyList [PyInt 1; PyInt 2]) /\
  (count (_extract_json (text_or_empty (Text (lit "[1, 2,]")))) (lit "{")
   = count (_extract_json (text_or_empty (Text (lit "[1, 2,]")))) (lit "}") + 1 \/
   contains (_extract_json (text_or_empty (Text (lit "[1, 2,]")))) (lit ",}") = true \/
   contains (_extract_json (text_or_empty (Text (lit "[1, 2,]")))) (lit ",]") = true).
Proof.
  assert (H2 : json_loads (_extract_json (text_or_empty (Text (lit "[1, 2,]"))))
               = None) by (vm_compute; reflexivity).
  assert (H3 : fst (analyze_image_with_prompt (answers (lit "[1, 2,]"))
                      {| api_key := lit "key"; model_name := lit "gemini" |}
                      [] (lit "describe") None no_effects)
               = inl (PyList [PyInt 1; PyInt 2]))
    by (rewrite analyze_answers; vm_compute; reflexivity).
  split; [reflexivity|]. split; [exact H2|]. split; [exact H3|].
  exact (@X11_repair_needs_a_defect (answers (lit "[1, 2,]"))
           {| api_key := lit "key"; model_name := lit "gemini" |}
           [] (lit "describe") None (Text (lit "[1, 2,]")) _ no_effects
           eq_refl H2 H3).
Defined.

(** ** The constructor *)

Lemma truthy_some (o : option str) :
  truthy o = true -> exists c k, o = Some (c :: k).
Proof. destruct o as [[|c k]|]; try discriminate. intros _. now eexists _, _. Qed.

(** X12.  A client that the constructor builds holds a non-empty key and
    a non-empty model name: each is the argument when that is a non-empty
    string and the setting otherwise, and [genai.configure] received the
    client's key. *)
Theorem X12_constructed_client (settings : Settings)
    (api_key_arg model_name_arg : option str) (self : GeminiClient) (key : str) :
  __init__ settings api_key_arg model_name_arg = Constructed self key ->
  api_key self <> [] /\ model_name self <> [] /\ key = api_key self /\
  Some (api_key self)
  = (if truthy api_key_arg then api_key_arg else GEMINI_API_KEY settings) /\
  Some (model_name self)
  = (if truthy model_name_arg then model_name_arg else GEMINI_MODEL settings).
Proof.
  unfold __init__, py_or.
  destruct (if truthy api_key_arg then api_key_arg else GEMINI_API_KEY settings)
    as [[|c k]|]; try discriminate.
  destruct (if truthy model_name_arg then model_name_arg else GEMINI_MODEL settings)
    as [[|d m]|]; try discriminate.
  intros [= <- <-]. cbn. repeat split; discriminate.
Qed.

Lemma X12_constructed_client_witness :
  __init__ {| GEMINI_API_KEY := Some (lit "env-key"); GEMINI_MODEL := Some (lit "env-model") |}
    (Some []) (Some (lit "gemini-pro"))
  = Constructed {| api_key := lit "env-key"; model_name := lit "gemini-pro" |}
      (lit "env-key") /\
  Some (api_key {| api_key := lit "env-key"; model_name := lit "gemini-pro" |})
  = (if truthy (Some []) then Some []
     else GEMINI_API_KEY {| GEMINI_API_KEY := Some (lit "env-key");
                            GEMINI_MODEL := Some (lit "env-model") |}).
Proof.
  split; [reflexivity|].
  exact (proj1 (proj2 (proj2 (proj2
    (@X12_constructed_client
       {| GEMINI_API_KEY := Some (lit "env-key"); GEMINI_MODEL := Some (lit "env-model") |}
       (Some []) (Some (lit "gemini-pro"))
       {| api_key := lit "env-key"; model_name := lit "gemini-pro" |}
       (lit "env-key") eq_refl))))).
Defined.

(** X13.  The constructor fails exactly when the key or the model name
    is missing - absent or empty as argument and as setting alike; the
    error is a [ValueError] that names the key when the key is missing,
    whatever the model name, and the model otherwise. *)
Theorem X13_constructor_errors (settings : Settings)
    (api_key_arg model_name_arg : option str) :
  let has_key := truthy api_key_arg || truthy (GEMINI_API_KEY settings) in
  let has_model := truthy model_name_arg || truthy (GEMINI_MODEL settings) in
  match __init__ settings api_key_arg model_name_arg with
  | Constructed _ _ => has_key = true /\ has_model = true
  | ConstructionError e =>
      (has_key = false /\ e = Exception (lit "Missing GEMINI_API_KEY.")) \/
      (has_key = true /\ has_model = false /\
       e = Exception (lit "Missing GEMINI_MODEL."))
  end.
Proof.
  unfold __init__, py_or.
  destruct api_key_arg as [[|c k]|], (GEMINI_API_KEY settings) as [[|c' k']|];
    cbn; try (left; now split);
    destruct model_name_arg as [[|d m]|], (GEMINI_MODEL settings) as [[|d' m']|];
    cbn; try (now split); right; now repeat split.
Qed.

(** X14.  The model name chosen at construction is the one an analysis
    request is addressed to: the argument when non-empty, the setting
    otherwise. *)
Theorem X14_requests_name_the_constructed_model (settings : Settings)
    (api_key_arg model_name_arg : option str) (self : GeminiClient) (key : str)
    (generate_content : request -> reply) (image_bytes : list N)
    (prompt : str) (mime : option str) (w : world) :
  __init__ settings api_key_arg model_name_arg = Constructed self key ->
  exists r,
    calls (snd (analyze_image_with_prompt generate_content self image_bytes
                  prompt mime w)) = calls w ++ [r] /\
    Some (req_model r)
    = (if truthy model_name_arg then model_name_arg else GEMINI_MODEL settings).
Proof.
  intros H. eexists. split; [apply analyze_calls|]. cbn [sent_request req_model].
  unfold __init__, py_or in H.
  destruct (if truthy api_key_arg then api_key_arg else GEMINI_API_KEY settings)
    as [[|c k]|]; try discriminate.
  destruct (if truthy model_name_arg then model_name_arg else GEMINI_MODEL settings)
    as [[|d m]|]; try discriminate.
  now injection H as <- <-.
Qed.

Lemma X14_requests_name_the_constructed_model_witness :
  __init__ {| GEMINI_API_KEY := Some (lit "env-key"); GEMINI_MODEL := Some (lit "env-model") |}
    None None
  = Constructed {| api_key := lit "env-key"; model_name := lit "env-model" |}
      (lit "env-key") /\
  exists r,
    calls (snd (analyze_image_with_prompt (answers (lit "{}"))
                  {| api_key := lit "env-key"; model_name := lit "env-model" |}
                  [1%N] (lit "describe") None no_effects))
    = calls no_effects ++ [r] /\
    Some (req_model r)
    = (if truthy None then None
       else GEMINI_MODEL {| GEMINI_API_KEY := Some (lit "env-key");
                            GEMINI_MODEL := Some (lit "env-model") |}).
Proof.
  split; [reflexivity|].
  exact (@X14_requests_name_the_constructed_model
           {| GEMINI_API_KEY := Some (lit "env-key"); GEMINI_MODEL := Some (lit "env-model") |}
           None None
           {| api_key := lit "env-key"; model_name := lit "env-model" |}
           (lit "env-key") (answers (lit "{}")) [1%N] (lit "describe") None
           no_effects eq_refl).
Defined.

(** ** Listing the models *)

Lemma describe_dict (m : model_object) (d : pyobj) :
  describe m = inl d -> is_dict d = true.
Proof.
  unfold describe. destruct (m_to_dict m) as [[d0|e]|]; try discriminate;
    now intros [= <-].
Qed.

Lemma describe_all_success (ms : list model_object) (fail : option exception)
    (ds : list pyobj) :
  describe_all ms fail = inl ds ->
  fail = None /\ map describe ms = map inl ds /\
  Forall (fun d => is_dict d = true) ds.
Proof.
  revert ds. induction ms as [|m ms IH]; intros ds; cbn.
  - destruct fail; [discriminate|]. intros [= <-]. now repeat split.
  - destruct (describe m) as [d|e] eqn:E; [|discriminate].
    destruct (describe_all ms fail) as [ds0|e]; [|discriminate].
    intros [= <-]. destruct (IH _ eq_refl) as (F & M & D).
    repeat split; [exact F|cbn; now rewrite M|].
    constructor; [eapply describe_dict, E|exact D].
Qed.

Lemma describe_all_raises (ms : list model_object) (fail : option exception)
    (m : model_object) (e : exception) :
  In m ms -> m_to_dict m = Some (inr e) ->
  exists e', describe_all ms fail = inr e'.
Proof.
  intros Hin Hm. induction ms as [|m0 ms IH]; [easy|]. cbn.
  destruct Hin as [->|Hin].
  - unfold describe. rewrite Hm. now eexists.
  - destruct (describe m0); [|now eexists].
    destruct (IH Hin) as (e' & ->). now eexists.
Qed.

(** X15.  When [list_models] returns, it returns one dict per model of
    the service, in order - the result of [to_dict()], or the name alone
    for an object without that method - and it has logged nothing. *)
Theorem X15_list_models_one_dict_per_model (models : listing)
    (http_str : Z -> str -> str) (self : GeminiClient) (w : world)
    (ds : list pyobj) :
  fst (list_models models http_str self w) = inl ds ->
  list_models models http_str self w = (inl ds, w) /\
  map describe (yielded models) = map inl ds /\
  length ds = length (yielded models) /\
  Forall (fun d => is_dict d = true) ds.
Proof.
  unfold list_models, try_except.
  destruct (describe_all (yielded models) (failure models)) as [ds0|e] eqn:E.
  - cbn [fst]. intros [= <-].
    destruct (describe_all_success _ _ E) as (_ & M & D).
    repeat split; [exact M| |exact D].
    apply (f_equal (@length _)) in M. now rewrite !length_map in M.
  - destruct e; discriminate.
Qed.

Lemma X15_list_models_one_dict_per_model_witness :
  fst (list_models
         {| yielded := [{| m_to_dict := Some (inl [(lit "name", PyStr (lit "models/a"))]);
                           m_name := None; m_str := lit "a" |};
                        {| m_to_dict := None; m_name := None; m_str := lit "Model(b)" |}];
            failure := None |}
         (fun _ d => d) {| api_key := lit "key"; model_name := lit "gemini" |}
         no_effects)
  = inl [PyDict [(lit "name", PyStr (lit "models/a"))];
         PyDict [(lit "name", PyStr (lit "Model(b)"))]] /\
  length [PyDict [(lit "name", PyStr (lit "models/a"))];
          PyDict [(lit "name", PyStr (lit "Model(b)"))]] = 2.
Proof.
  split; [reflexivity|].
  exact (proj1 (proj2 (proj2
    (@X15_list_models_one_dict_per_model
       {| yielded := [{| m_to_dict := Some (inl [(lit "name", PyStr (lit "models/a"))]);
                         m_name := None; m_str := lit "a" |};
                      {| m_to_dict := None; m_name := None; m_str := lit "Model(b)" |}];
          failure := None |}
       (fun _ d => d) {| api_key := lit "key"; model_name := lit "gemini" |}
       no_effects _ eq_refl)))).
Defined.

(** X16.  [list_models] never returns a partial list: when [to_dict()]
    of any model raises, or the iteration fails, the call raises. *)
Theorem X16_list_models_all_or_nothing (models : listing)
    (http_str : Z -> str -> str) (self : GeminiClient) (w : world) :
  (failure models <> None \/
   exists m e, In m (yielded models) /\ m_to_dict m = Some (inr e)) ->
  exists e', fst (list_models models http_str self w) = inr e'.
Proof.
  intros H.
  assert (R : exists e, describe_all (yielded models) (failure models) = inr e).
  { destruct H as [H|(m & e & Hin & Hm)].
    - destruct (describe_all _ _) as [ds|e] eqn:E; [|now eexists].
      now destruct (describe_all_success _ _ E) as (F & _).
    - eapply describe_all_raises; eassumption. }
  destruct R as (e & E). unfold list_models, try_except. rewrite E.
  destruct e; now eexists.
Qed.

Lemma X16_list_models_all_or_nothing_witness :
  (failure {| yielded := [{| m_to_dict := None; m_name := None; m_str := lit "a" |};
                          {| m_to_dict := Some (inr (Exception (lit "boom")));
                             m_name := None; m_str := lit "b" |}];
              failure := None |} <> None \/
   exists m e,
     In m (yielded {| yielded := [{| m_to_dict := None; m_name := None; m_str := lit "a" |};
                                  {| m_to_dict := Some (inr (Exception (lit "boom")));
                                     m_name := None; m_str := lit "b" |}];
                      failure := None |}) /\
     m_to_dict m = Some (inr e)) /\
  exists e',
    fst (list_models
           {| yielded := [{| m_to_dict := None; m_name := None; m_str := lit "a" |};
                          {| m_to_dict := Some (inr (Exception (lit "boom")));
                             m_name := None; m_str := lit "b" |}];
              failure := None |}
           (fun _ d => d) {| api_key := lit "key"; model_name := lit "gemini" |}
           no_effects) = inr e'.
Proof.
  assert (H : failure {| yielded := [{| m_to_dict := None; m_name := None; m_str := lit "a" |};
                                    {| m_to_dict := Some (inr (Exception (lit "boom")));
                                       m_name := None; m_str := lit "b" |}];
                        failure := None |} <> None \/
              exists m e,
                In m (yielded {| yielded := [{| m_to_dict := None; m_name := None; m_str := lit "a" |};
                                             {| m_to_dict := Some (inr (Exception (lit "boom")));
                                                m_name := None; m_str := lit "b" |}];
                                 failure := None |}) /\
                m_to_dict m = Some (inr e)).
  { right. eexists _, _. split; [right; left; reflexivity|reflexivity]. }
  split; [exact H|].
  exact (@X16_list_models_all_or_nothing _ (fun _ d => d)
           {| api_key := lit "key"; model_name := lit "gemini" |} no_effects H).
Defined.

(** X17.  Every error of [list_models], except an exception outside
    [Exception], is an [HTTPException] of status 502 whose detail starts
    with [Failed to list models: ] and is logged once - also when the
    service itself raised an [HTTPException] with another status. *)
Theorem X17_list_models_errors_are_502 (models : listing)
    (http_str : Z -> str -> str) (self : GeminiClient) (w : world) :
  match list_models models http_str self w with
  | (inl _, w') => w' = w
  | (inr (BaseException _), w') => w' = w
  | (inr e, w') =>
      (exists cause,
          e = HTTPException 502 (lit "Failed to list models: " ++ cause)) /\
      w' = {| calls := calls w;
              records := records w ++ [LogException (lit "Failed to list models")] |}
  end.
Proof.
  unfold list_models, try_except.
  destruct (describe_all (yielded models) (failure models)) as [ds|e];
    [reflexivity|].
  destruct e as [code detail|message|message]; cbn.
  - split; [now eexists|reflexivity].
  - split; [now eexists|reflexivity].
  - reflexivity.
Qed.

(** ** The candidate as a part of the text *)

Lemma strip_In (s : str) (x : char) : In x (strip s) -> In x s.
Proof. unfold strip. intros H. now apply rstrip_In, lstrip_In in H. Qed.

Lemma middle_length (s a m b : str) : s = a ++ m ++ b -> length m <= length s.
Proof. intros ->. rewrite !length_app. lia. Qed.

Lemma unfence_length (s : str) : length (unfence s) <= length s.
Proof.
  rewrite unfence_eq.
  pose proof (deleted_length
                (@replace_from_deleted fence_json s ltac:(discriminate))).
  pose proof (deleted_length
                (@replace_from_deleted fence (replace_from fence_json [] 0 s)
                   ltac:(discriminate))).
  lia.
Qed.

(** X18.  In a text without backticks the candidate is a contiguous part
    of the text. *)
Theorem X18_candidate_is_substring (text : str) :
  ~ In Ch.backtick text ->
  exists a b, text = a ++ _extract_json text ++ b.
Proof.
  intros Hb. destruct (strip_middle text) as (a1 & b1 & H1).
  assert (U : strip (unfence (strip text)) = strip text).
  { rewrite unfence_absent; [apply strip_strip|].
    intros H. apply Hb. eapply strip_In, H. }
  destruct (extract_json_cases text) as [(a & mid & b & Hr & ->)|[_ ->]];
    rewrite U in *.
  - exists (a1 ++ a), (b ++ b1). rewrite H1 at 1. rewrite Hr.
    now rewrite <- !app_assoc.
  - now exists a1, b1.
Qed.

Lemma X18_candidate_is_substring_witness :
  ~ In Ch.backtick (lit "Sure. {'a': {'b': 1}} Anything else?") /\
  exists a b,
    lit "Sure. {'a': {'b': 1}} Anything else?"
    = a ++ _extract_json (lit "Sure. {'a': {'b': 1}} Anything else?") ++ b.
Proof.
  assert (H : ~ In Ch.backtick (lit "Sure. {'a': {'b': 1}} Anything else?"))
    by (vm_compute; intuition discriminate).
  split; [exact H|].
  exact (@X18_candidate_is_substring _ H).
Defined.

(** X19.  End to end: when the response is a well-formed JSON object
    without backticks, wrapped in any prose and fence markers that put no
    opening brace before it and no closing brace after it, the pipeline
    returns exactly the decoded object, without any repair, having logged
    the raw text and the candidate. *)
Theorem X19_wrapped_object_is_returned (generate_content : request -> reply)
    (self : GeminiClient) (image_bytes : list N) (prompt : str)
    (mime : option str) (pre mid post : str) (v : pyobj) (w : world) :
  let object := Ch.lbrace :: mid ++ [Ch.rbrace] in
  let req := sent_request self image_bytes prompt
               (match mime with Some m => m | None => lit "image/jpeg" end) in
  generate_content req = Returns (Text (pre ++ object ++ post)) ->
  ~ In Ch.lbrace pre -> ~ In Ch.rbrace post -> ~ In Ch.backtick mid ->
  json_loads object = Some v ->
  analyze_image_with_prompt generate_content self image_bytes prompt mime w
  = (inl v, after_reply w req (pre ++ object ++ post)) /\
  is_dict v = true.
Proof.
  intros object req H Hpre Hpost Hmid Hv.
  assert (E : _extract_json (pre ++ object ++ post) = object).
  { unfold object. cbn [app]. rewrite <- app_assoc. cbn [app].
    rewrite extract_json_between by assumption. now rewrite unfence_absent. }
  split; [|eapply json_loads_brace_dict, Hv].
  rewrite (analyze_returns _ _ _ _ _ w H). cbv zeta. cbn [text_or_empty].
  now rewrite E, Hv.
Qed.

Lemma X19_wrapped_object_is_returned_witness :
  answers (lit "```json" ++ [Ch.lf] ++ (Ch.lbrace :: lit "'x':1" ++ [Ch.rbrace])
           ++ [Ch.lf] ++ lit "```")
    (sent_request {| api_key := lit "key"; model_name := lit "gemini" |}
       [1%N] (lit "describe") (lit "image/jpeg"))
  = Returns (Text ((lit "```json" ++ [Ch.lf])
                   ++ (Ch.lbrace :: lit "'x':1" ++ [Ch.rbrace])
                   ++ ([Ch.lf] ++ lit "```"))) /\
  ~ In Ch.lbrace (lit "```json" ++ [Ch.lf]) /\
  ~ In Ch.rbrace ([Ch.lf] ++ lit "```") /\
  ~ In Ch.backtick (lit "'x':1") /\
  json_loads (Ch.lbrace :: lit "'x':1" ++ [Ch.rbrace])
  = Some (PyDict [(lit "x", PyInt 1)]) /\
  fst (analyze_image_with_prompt
         (answers (lit "```json" ++ [Ch.lf]
                   ++ (Ch.lbrace :: lit "'x':1" ++ [Ch.rbrace])
                   ++ [Ch.lf] ++ lit "```"))
         {| api_key := lit "key"; model_name := lit "gemini" |}
         [1%N] (lit "describe") None no_effects)
  = inl (PyDict [(lit "x", PyInt 1)]).
Proof.
  assert (H1 : ~ In Ch.lbrace (lit "```json" ++ [Ch.lf]))
    by (vm_compute; intuition discriminate).
  assert (H2 : ~ In Ch.rbrace ([Ch.lf] ++ lit "```"))
    by (vm_compute; intuition discriminate).
  assert (H3 : ~ In Ch.backtick (lit "'x':1"))
    by (vm_compute; intuition discriminate).
  assert (H4 : json_loads (Ch.lbrace :: lit "'x':1" ++ [Ch.rbrace])
               = Some (PyDict [(lit "x", PyInt 1)])) by (vm_compute; reflexivity).
  split; [reflexivity|]. split; [exact H1|]. split; [exact H2|].
  split; [exact H3|]. split; [exact H4|].
  exact (f_equal fst
           (proj1 (@X19_wrapped_object_is_returned
                     (answers (lit "```json" ++ [Ch.lf]
                               ++ (Ch.lbrace :: lit "'x':1" ++ [Ch.rbrace])
                               ++ [Ch.lf] ++ lit "```"))
                     {| api_key := lit "key"; model_name := lit "gemini" |}
                     [1%N] (lit "describe") None
                     (lit "```json" ++ [Ch.lf]) (lit "'x':1") ([Ch.lf] ++ lit "```")
                     _ no_effects eq_refl H1 H2 H3 H4))).
Defined.

(** X20.  The candidate is never longer than the response text. *)
Theorem X20_candidate_not_longer (text : str) :
  length (_extract_json text) <= length text.
Proof.
  assert (R : length (strip (unfence (strip text))) <= length text).
  { destruct (strip_middle text) as (a1 & b1 & H1).
    destruct (strip_middle (unfence (strip text))) as (a2 & b2 & H2).
    pose proof (middle_length _ _ _ H1).
    pose proof (middle_length _ _ _ H2).
    pose proof (unfence_length (strip text)). lia. }
  destruct (extract_json_cases text) as [(a & mid & b & Hr & ->)|[_ ->]];
    [|exact R].
  pose proof (middle_length _ _ _ Hr). lia.
Qed.

